(** * echo-http-cache: the in-memory adapter ([adapter/memory/memory.go])

    A shallow embedding of the memory adapter: the [Response] record, its gob
    codec ([Response.Bytes] and [BytesToResponse]), the bounded store with
    its four operations and the eviction scan, and the constructor with its
    options.

    Conventions of the embedding:
    - Go [int], [int64] and [uint64] are [Z] with their wrap-around written
      out; [[]byte] is [list byte] (a nil slice and an empty one are both
      [[]]); the [map[uint64][]byte] is a [gmap Z (list byte)].
    - [time.Time] is the wall-clock instant that [Time.After], [Time.Before],
      [Time.Equal] and [Time.MarshalBinary] look at: seconds since
      January 1, year 1, and nanoseconds within the second.  Monotonic clock
      readings and locations are not part of the model (gob drops the
      former, and no comparison in the source looks at the latter).
    - [time.Now()] and the order in which [range] walks a Go map are inputs
      of the operations that use them.
    - The locks of the adapter only matter for the interleavings of module
      [Interleaving]; the sequential operations leave them out. *)

From Stdlib Require Import ZArith Lia List Bool.
From Stdlib Require Import Strings.Byte.
From stdpp Require Import base gmap list strings fin_maps.

Local Open Scope Z_scope.

(** ** Bytes *)

Definition byte_of_Z (z : Z) : byte :=
  match Byte.of_N (Z.to_N (z mod 256)) with
  | Some b => b
  | None => x00
  end.

Definition Z_of_byte (b : byte) : Z := Z.of_N (Byte.to_N b).

(** [binary.BigEndian.PutUint64] and friends: the [n] low bytes of [x], most
    significant first.  [byte(x >> k)] truncates, so negative numbers come
    out in two's complement. *)
Fixpoint be_bytes (n : nat) (x : Z) : list byte :=
  match n with
  | O => []
  | S n' => byte_of_Z (Z.shiftr x (8 * Z.of_nat n')) :: be_bytes n' x
  end.

(** [x = x<<8 | uint64(b)] over a run of bytes. *)
Definition be_value (l : list byte) : Z :=
  fold_left (fun x b => Z.lor (Z.shiftl x 8) (Z_of_byte b)) l 0.

(** Two's complement reading of a [w]-bit word: [int64(x)], [int32(x)]. *)
Definition to_signed (w : Z) (x : Z) : Z :=
  let u := x mod 2 ^ w in
  if u <? 2 ^ (w - 1) then u else u - 2 ^ w.

(** ** [time.Time] *)
Module time.

Record Time := { sec : Z; nsec : Z }.

(** [time.Time{}], the zero value. *)
Definition zero : Time := {| sec := 0; nsec := 0 |}.

(** A value the [time] package can hold. *)
Definition valid (t : Time) : Prop :=
  - 2 ^ 63 <= sec t < 2 ^ 63 /\ 0 <= nsec t < 1000000000.

(** [t.After(u)]: [ts > us || ts == us && t.nsec() > u.nsec()]. *)
Definition After (t u : Time) : bool :=
  (sec u <? sec t) || ((sec t =? sec u) && (nsec u <? nsec t)).

(** [t.Before(u)]. *)
Definition Before (t u : Time) : bool :=
  (sec t <? sec u) || ((sec t =? sec u) && (nsec t <? nsec u)).

(** [t.Equal(u)]. *)
Definition Equal (t u : Time) : bool :=
  (sec t =? sec u) && (nsec t =? nsec u).

(** [reflect.Value.IsZero] on a [Time]. *)
Definition IsZero (t : Time) : bool :=
  (sec t =? 0) && (nsec t =? 0).

Definition timeBinaryVersionV1 : Z := 1.
Definition timeBinaryVersionV2 : Z := 2.

(** [Time.MarshalBinary] (which [Time.GobEncode] calls): version, eight
    bytes of seconds, four of nanoseconds, two of zone offset in minutes,
    -1 standing for UTC. *)
Definition MarshalBinary (t : Time) : list byte :=
  byte_of_Z timeBinaryVersionV1
    :: be_bytes 8 (sec t) ++ be_bytes 4 (nsec t) ++ be_bytes 2 (-1).

(** [Time.UnmarshalBinary] (which [Time.GobDecode] calls); [None] is its
    error return.  The nanoseconds are stored as read: the model follows
    the package for values in 0..999999999, which are all that
    [MarshalBinary] writes. *)
Definition UnmarshalBinary (data : list byte) : option Time :=
  match data with
  | [] => None
  | version :: buf =>
      let v := Z_of_byte version in
      if negb (v =? timeBinaryVersionV1) && negb (v =? timeBinaryVersionV2)
      then None
      else
        let wantLen := 15 + (if v =? timeBinaryVersionV2 then 1 else 0) in
        if negb (Z.of_nat (length data) =? wantLen) then None
        else
          Some {| sec := to_signed 64 (be_value (take 8 buf));
                  nsec := to_signed 32 (be_value (take 4 (drop 8 buf))) |}
  end.

End time.

Abbreviation Time := time.Time.

(** ** The cached response *)

Record Response := {
  Value : list byte;          (* the cached response value *)
  Expiration : Time;          (* the cached response expiration date *)
  LastAccess : Time;          (* last date the response was accessed *)
  Frequency : Z               (* count of accesses, a Go int *)
}.

(** [var r Response]. *)
Definition zeroResponse : Response :=
  {| Value := []; Expiration := time.zero; LastAccess := time.zero;
     Frequency := 0 |}.

(** ** The gob wire format ([encoding/gob])

    [Response.Bytes] and [BytesToResponse] are four lines each around a gob
    encoder and decoder, so the codec is gob's.  What follows is gob's wire
    format for the one type the adapter sends.

    A gob stream starts with type-definition messages; for a fixed Go type
    they are a constant prefix of every stream a fresh encoder writes.  The
    model is the stream without that prefix: the value message. *)
Module gob.

Definition uint64Size : Z := 8.

(** [tooBig = (1 << 30) << (^uint(0) >> 62)], on a 64-bit platform. *)
Definition tooBig : Z := 2 ^ 33.

Inductive error :=
| EOF                (* io.EOF: no byte to read *)
| ErrUnexpectedEOF   (* io.ErrUnexpectedEOF: message shorter than announced *)
| errBadUint         (* "gob: encoded unsigned integer out of range" *)
| errBadCount        (* "gob: invalid message length" *)
| errBadType         (* "gob: unknown type id or corrupted data" *)
| errRange           (* "gob: bad data: field numbers out of bounds" *)
| errDataLength      (* "invalid uint data length: exceeds input size" *)
| errNegativeDelta   (* "decode: corrupted data: negative delta" *)
| errSliceLength     (* "bad []byte slice length" *)
| errGobDecoder      (* "GobDecoder: length too large for buffer" *)
| errUnmarshal.      (* the error of Time.UnmarshalBinary *)

(** [bits.LeadingZeros64]. *)
Definition LeadingZeros64 (x : Z) : Z :=
  if x =? 0 then 64 else 63 - Z.log2 x.

(** [encoderState.encodeUint]: a value up to 0x7F is one byte; otherwise
    the minimal big-endian bytes follow a byte holding their negated
    count. *)
Definition encodeUint (x : Z) : list byte :=
  if x <=? 127 then [byte_of_Z x]
  else
    let bc := Z.shiftr (LeadingZeros64 x) 3 in
    byte_of_Z (bc - uint64Size) :: drop (Z.to_nat bc) (be_bytes 8 x).

(** [encoderState.encodeInt]: bit 0 says whether to complement; the
    shifts are on 64-bit words. *)
Definition encodeInt (i : Z) : list byte :=
  if i <? 0
  then encodeUint (Z.lor ((Z.lnot i * 2) mod 2 ^ 64) 1)
  else encodeUint ((i * 2) mod 2 ^ 64).

(** [decoderState.decodeUint] (and [decodeUintReader], which differs in
    the errors only): the value and the bytes left. *)
Definition decodeUint (buf : list byte) : error + Z * list byte :=
  match buf with
  | [] => inl EOF
  | b :: buf =>
      if Z_of_byte b <=? 127 then inr (Z_of_byte b, buf)
      else
        let n := 256 - Z_of_byte b in   (* -int(int8(b)) *)
        if uint64Size <? n then inl errBadUint
        else if Z.of_nat (length buf) <? n then inl errDataLength
        else inr (be_value (take (Z.to_nat n) buf), drop (Z.to_nat n) buf)
  end.

(** [decoderState.decodeInt]: [^int64(x >> 1)] or [int64(x >> 1)]. *)
Definition decodeInt (buf : list byte) : error + Z * list byte :=
  match decodeUint buf with
  | inl e => inl e
  | inr (x, buf) =>
      if Z.testbit x 0 then inr (Z.lnot (Z.shiftr x 1), buf)
      else inr (Z.shiftr x 1, buf)
  end.

(** *** Encoding a [Response] *)

(** The id gob gives to the first type a process defines
    ([firstUserId + 1]); sent in front of the value, checked by the
    decoder against the ids the stream has defined. *)
Definition responseId : Z := 65.

(** [encoderState]: the last field number written and the buffer. *)
Record encoderState := { fieldnum : Z; b : list byte }.

(** [encoderState.update]: the field number, as a delta. *)
Definition update (i : Z) (state : encoderState) : encoderState :=
  {| fieldnum := i; b := b state ++ encodeUint (i - fieldnum state) |}.

Definition write (data : list byte) (state : encoderState) : encoderState :=
  {| fieldnum := fieldnum state; b := b state ++ data |}.

(** [encUint8Array]: an empty slice is not sent. *)
Definition encUint8Array (i : Z) (v : list byte) (state : encoderState)
  : encoderState :=
  if 0 <? Z.of_nat (length v)
  then write v (write (encodeUint (Z.of_nat (length v))) (update i state))
  else state.

(** [gobEncodeOpFor] at a [Time]: the zero value is not sent; otherwise
    [encodeGobEncoder] writes the length of [GobEncode]'s bytes and the
    bytes. *)
Definition encGobEncoder (i : Z) (t : Time) (state : encoderState)
  : encoderState :=
  if time.IsZero t then state
  else
    let data := time.MarshalBinary t in
    write data (write (encodeUint (Z.of_nat (length data))) (update i state)).

(** [encInt]: zero is not sent. *)
Definition encInt (i : Z) (v : Z) (state : encoderState) : encoderState :=
  if v =? 0 then state else write (encodeInt v) (update i state).

(** [encStructTerminator]. *)
Definition encStructTerminator (state : encoderState) : encoderState :=
  write (encodeUint 0) state.

(** [Encoder.encodeStruct] with the engine of [Response]: the fields in
    declaration order, then the terminator. *)
Definition encodeStruct (r : Response) (state : encoderState) : encoderState :=
  let state := {| fieldnum := -1; b := b state |} in
  let state := encUint8Array 0 (Value r) state in
  let state := encGobEncoder 1 (Expiration r) state in
  let state := encGobEncoder 2 (LastAccess r) state in
  let state := encInt 3 (Frequency r) state in
  encStructTerminator state.

(** The message without its length: the type id ([sendTypeId]), then the
    value. *)
Definition message (r : Response) : list byte :=
  b (encodeStruct r {| fieldnum := -1; b := encodeInt responseId |}).

(** [Encoder.Encode] followed by [writeMessage], as far as the value
    message goes: a message of [tooBig] bytes or more sets the encoder's
    error and is not written; otherwise it goes out behind its length. *)
Definition Encode (r : Response) : list byte :=
  let m := message r in
  if tooBig <=? Z.of_nat (length m) then []
  else encodeUint (Z.of_nat (length m)) ++ m.

(** *** Decoding into a [Response] *)

(** [decoderState.getLength]: a count, which must fit what is left. *)
Definition getLength (buf : list byte) : option (Z * list byte) :=
  match decodeUint buf with
  | inl _ => None
  | inr (n, buf) =>
      if (2 ^ 63 <=? n) || (Z.of_nat (length buf) <? n) || (tooBig <=? n)
      then None
      else Some (n, buf)
  end.

(** The decoding engine of [Response], by field number: [decUint8Slice],
    [decodeGobDecoder] twice, [decInt].  Each stores into the struct at
    once. *)
Definition decodeField (i : Z) (r : Response) (buf : list byte)
  : error + Response * list byte :=
  if i =? 0 then
    match getLength buf with
    | None => inl errSliceLength
    | Some (n, buf) =>
        inr ({| Value := take (Z.to_nat n) buf; Expiration := Expiration r;
                LastAccess := LastAccess r; Frequency := Frequency r |},
             drop (Z.to_nat n) buf)
    end
  else if (i =? 1) || (i =? 2) then
    match getLength buf with
    | None => inl errGobDecoder
    | Some (n, buf) =>
        match time.UnmarshalBinary (take (Z.to_nat n) buf) with
        | None => inl errUnmarshal
        | Some t =>
            inr (if i =? 1
                 then {| Value := Value r; Expiration := t;
                         LastAccess := LastAccess r; Frequency := Frequency r |}
                 else {| Value := Value r; Expiration := Expiration r;
                         LastAccess := t; Frequency := Frequency r |},
                 drop (Z.to_nat n) buf)
        end
    end
  else
    match decodeInt buf with
    | inl e => inl e
    | inr (v, buf) =>
        inr ({| Value := Value r; Expiration := Expiration r;
                LastAccess := LastAccess r; Frequency := v |}, buf)
    end.

(** [len(engine.instr)]: the four fields of the wire type. *)
Definition numInstr : Z := 4.

(** [Decoder.decodeStruct]: while bytes are left, a field delta and the
    field; delta zero ends the struct.  The fields decoded before an
    error stay in the struct.  Every round consumes a byte, so the
    length of the buffer is fuel enough ([decodeStruct_fuel]). *)
Fixpoint decodeStruct (fuel : nat) (fieldnum : Z) (r : Response)
    (buf : list byte) : Response * option error :=
  match fuel, buf with
  | O, _ | _, [] => (r, None)
  | S fuel, _ =>
      match decodeUint buf with
      | inl e => (r, Some e)
      | inr (delta, buf) =>
          if 2 ^ 63 <=? delta then (r, Some errNegativeDelta)
          else if delta =? 0 then (r, None)
          else if numInstr - delta <=? fieldnum then (r, Some errRange)
          else
            let fieldnum := fieldnum + delta in
            match decodeField fieldnum r buf with
            | inl e => (r, Some e)
            | inr (r, buf) => decodeStruct fuel fieldnum r buf
            end
      end
  end.

(** [Decoder.Decode(&r)]: [recvMessage] reads the length and the whole
    message, or fails before anything is stored; then the type id, then
    the struct.  The result is [r] as the call leaves it, and the error
    it returns. *)
Definition Decode (data : list byte) (r : Response) : Response * option error :=
  match decodeUint data with
  | inl EOF => (r, Some EOF)
  | inl errBadUint => (r, Some errBadUint)
  | inl _ => (r, Some ErrUnexpectedEOF)
  | inr (nbytes, rest) =>
      if tooBig <=? nbytes then (r, Some errBadCount)
      else if Z.of_nat (length rest) <? nbytes then (r, Some ErrUnexpectedEOF)
      else
        match decodeInt (take (Z.to_nat nbytes) rest) with
        | inl _ => (r, Some ErrUnexpectedEOF)
        | inr (id, buf) =>
            if id =? responseId
            then decodeStruct (length buf) (-1) r buf
            else (r, Some errBadType)
        end
  end.

End gob.

(** [BytesToResponse]: decode into a fresh [Response]; the error of
    [dec.Decode] is dropped. *)
Definition BytesToResponse (b : list byte) : Response :=
  fst (gob.Decode b zeroResponse).

(** [Response.Bytes]: the error of [enc.Encode] is dropped. *)
Definition Response_Bytes (r : Response) : list byte := gob.Encode r.

(** A valid entry: its times are values of [time.Time], its frequency is a
    Go [int], and its value leaves room, below gob's limit on the length of
    a message, for the other fields. *)
Definition valid_entry (r : Response) : Prop :=
  time.valid (Expiration r) /\ time.valid (LastAccess r)
  /\ - 2 ^ 63 <= Frequency r < 2 ^ 63
  /\ Z.of_nat (length (Value r)) + 64 <= gob.tooBig.

(** ** The adapter *)

(** [Algorithm] is the string type for caching algorithms labels. *)
Definition Algorithm := string.

Definition LRU : Algorithm := "LRU".   (* Least Recently Used *)
Definition MRU : Algorithm := "MRU".   (* Most Recently Used *)
Definition LFU : Algorithm := "LFU".   (* Least Frequently Used *)
Definition MFU : Algorithm := "MFU".   (* Most Frequently Used *)

(** [Adapter] is the memory adapter data structure (the mutex is left out,
    see [Interleaving]). *)
Record Adapter := {
  capacity : Z;
  algorithm : Algorithm;
  store : gmap Z (list byte)
}.

Definition with_store (a : Adapter) (m : gmap Z (list byte)) : Adapter :=
  {| capacity := capacity a; algorithm := algorithm a; store := m |}.

(** [len(a.store)]. *)
Definition len (m : gmap Z (list byte)) : Z := Z.of_nat (size m).

(** Go's [int], 64 bits wide: the result of an arithmetic operation. *)
Definition int (x : Z) : Z := to_signed 64 x.

(** [Adapter.Release]. *)
Definition Adapter_Release (key : Z) (a : Adapter) : Adapter :=
  match store a !! key with
  | Some _ => with_store a (delete key (store a))
  | None => a
  end.

(** [Adapter.Purge]. *)
Definition Adapter_Purge (a : Adapter) : Adapter := with_store a ∅.

(** [Adapter.Get]; [now1] and [now2] are what the two calls of [time.Now()]
    return.  The result is the pair Go returns and the adapter afterwards. *)
Definition Adapter_Get (now1 now2 : Time) (key : Z) (a : Adapter)
  : (list byte * bool) * Adapter :=
  match store a !! key with
  | None => (([], false), a)
  | Some res =>
      let response := BytesToResponse res in
      if time.After (Expiration response) now1 then   (* still valid *)
        let response :=
          {| Value := Value response; Expiration := Expiration response;
             LastAccess := now2; Frequency := int (Frequency response + 1) |} in
        ((Value response, true),
         with_store a (<[key := Response_Bytes response]> (store a)))
      else   (* expired, remove it *)
        (([], false), Adapter_Release key a)
  end.

(** Modelled from the spec: [cache.BytesToResponse], the decoder of the root
    package [echo-http-cache], which [evict] calls and whose file is not
    part of the sources at hand.  The spec has one entry codec, "used
    uniformly", so it is the decoder of this package. *)
Definition cache_BytesToResponse (b : list byte) : Response := BytesToResponse b.

(** What the scan of [evict] reads in a stored record. *)
Definition accessed (v : list byte) : Time := LastAccess (cache_BytesToResponse v).
Definition used (v : list byte) : Z := Frequency (cache_BytesToResponse v).

(** The three variables of [evict]. *)
Record selection := {
  selectedKey : Z;
  lastAccess : Time;
  frequency : Z
}.

(** [evict] before its loop. *)
Definition evict_init (alg : Algorithm) (now : Time) : selection :=
  {| selectedKey := 0;
     lastAccess := if String.eqb alg MRU then time.zero else now;
     frequency := if String.eqb alg MRU then 2147483647
                  else if String.eqb alg MFU then 0 else 2147483647 |}.

(** The body of the loop of [evict], at the entry [(k, v)]. *)
Definition evict_visit (alg : Algorithm) (s : selection) (kv : Z * list byte)
  : selection :=
  let (k, v) := kv in
  let r := cache_BytesToResponse v in
  if String.eqb alg LRU then
    if time.Before (LastAccess r) (lastAccess s)
    then {| selectedKey := k; lastAccess := LastAccess r; frequency := frequency s |}
    else s
  else if String.eqb alg MRU then
    if time.After (LastAccess r) (lastAccess s)
       || time.Equal (LastAccess r) (lastAccess s)
    then {| selectedKey := k; lastAccess := LastAccess r; frequency := frequency s |}
    else s
  else if String.eqb alg LFU then
    if Frequency r <? frequency s
    then {| selectedKey := k; lastAccess := lastAccess s; frequency := Frequency r |}
    else s
  else if String.eqb alg MFU then
    if frequency s <=? Frequency r
    then {| selectedKey := k; lastAccess := lastAccess s; frequency := Frequency r |}
    else s
  else s.

(** The key [evict] has selected when its loop ends; [range] is the order
    in which [for k, v := range a.store] yields the entries. *)
Definition evict_select (alg : Algorithm) (now : Time)
    (range : list (Z * list byte)) : Z :=
  selectedKey (fold_left (evict_visit alg) range (evict_init alg now)).

(** [Adapter.evict]. *)
Definition Adapter_evict (now : Time) (range : list (Z * list byte))
    (a : Adapter) : Adapter :=
  Adapter_Release (evict_select (algorithm a) now range) a.

(** [Adapter.Set]; [now] is [time.Now()] in [Set], [evict_now] the one in
    [evict], [range] the order of the loop of [evict]. *)
Definition Adapter_Set (now evict_now : Time) (range : list (Z * list byte))
    (key : Z) (response : list byte) (expiration : Time) (a : Adapter)
  : Adapter :=
  let res := {| Value := response; Expiration := expiration;
                LastAccess := now; Frequency := 1 |} in
  let length := len (store a) in
  let a := if (0 <? length) && (length =? capacity a)
           then Adapter_evict evict_now range a else a in
  with_store a (<[key := Response_Bytes res]> (store a)).

(** The loop of [evict] walks the map: each entry once, in some order. *)
Definition ranges (range : list (Z * list byte)) (a : Adapter) : Prop :=
  range ≡ₚ map_to_list (store a).

(** ** Construction *)

Inductive config_error :=
| errCapacityRequired (cap : Z)  (* "memory adapter requires a capacity greater than %v" *)
| errCapacityNotSet              (* "memory adapter capacity is not set" *)
| errAlgorithmNotSet.            (* "memory adapter caching algorithm is not set" *)

(** [AdapterOptions] is used to set [Adapter] settings. *)
Definition AdapterOptions := Adapter -> config_error + Adapter.

(** [AdapterWithAlgorithm]. *)
Definition AdapterWithAlgorithm (alg : Algorithm) : AdapterOptions :=
  fun a => inr {| capacity := capacity a; algorithm := alg; store := store a |}.

(** [AdapterWithCapacity]. *)
Definition AdapterWithCapacity (cap : Z) : AdapterOptions :=
  fun a =>
    if cap <=? 1 then inl (errCapacityRequired cap)
    else inr {| capacity := cap; algorithm := algorithm a; store := store a |}.

(** The loop of [NewAdapter] over its options. *)
Fixpoint apply_options (opts : list AdapterOptions) (a : Adapter)
  : config_error + Adapter :=
  match opts with
  | [] => inr a
  | opt :: opts =>
      match opt a with
      | inl err => inl err
      | inr a => apply_options opts a
      end
  end.

(** [NewAdapter]. *)
Definition NewAdapter (opts : list AdapterOptions) : config_error + Adapter :=
  match apply_options opts {| capacity := 0; algorithm := EmptyString; store := ∅ |} with
  | inl err => inl err
  | inr a =>
      if capacity a <=? 1 then inl errCapacityNotSet
      else if String.eqb (algorithm a) EmptyString then inl errAlgorithmNotSet
      else inr (with_store a ∅)
  end.

(** The four recognized tags. *)
Definition recognized (alg : Algorithm) : Prop :=
  alg = LRU \/ alg = MRU \/ alg = LFU \/ alg = MFU.

(** The options a caller passes to [NewAdapter] for a policy and a
    capacity, each of them set or not. *)
Definition configure (cap : option Z) (alg : option Algorithm)
  : list AdapterOptions :=
  match alg with Some alg => [AdapterWithAlgorithm alg] | None => [] end
  ++ match cap with Some cap => [AdapterWithCapacity cap] | None => [] end.

(** The configurations [NewAdapter] turns down. *)
Definition rejected (cap : option Z) (alg : option Algorithm) : Prop :=
  match cap with Some c => c <= 1 | None => True end
  \/ match alg with Some g => g = EmptyString | None => True end.

Definition failed {E A : Type} (r : E + A) : Prop :=
  match r with inl _ => True | inr _ => False end.

(** ** Sequential programs of [Set] calls *)

(** The wall clock, as the comparisons of the source see it. *)
Definition time_lt (t u : Time) : Prop := time.Before t u = true.
Definition time_le (t u : Time) : Prop := time.Before u t = false.

(** One call of [Set], with what it reads from its environment. *)
Record SetCall := {
  call_key : Z;
  call_response : list byte;
  call_expiration : Time;
  call_now : Time;                      (* time.Now() in Set *)
  call_evict_now : Time;                (* time.Now() in evict *)
  call_range : list (Z * list byte)     (* the order of the loop of evict *)
}.

Definition call (c : SetCall) (a : Adapter) : Adapter :=
  Adapter_Set (call_now c) (call_evict_now c) (call_range c)
    (call_key c) (call_response c) (call_expiration c) a.

Definition run (cs : list SetCall) (a : Adapter) : Adapter :=
  fold_left (fun a c => call c a) cs a.

(** The environment of a program that starts in [a] when the clock shows
    [t]: the clock advances from one call to the next and does not go back
    inside a call, the times are values of [time.Time], and each loop of
    [evict] walks the map as it is then. *)
Fixpoint ticking (t : Time) (a : Adapter) (cs : list SetCall) : Prop :=
  match cs with
  | [] => True
  | c :: cs =>
      time_lt t (call_now c) /\ time_le (call_now c) (call_evict_now c)
      /\ time.valid (call_now c) /\ time.valid (call_expiration c)
      /\ ranges (call_range c) a
      /\ ticking (call_evict_now c) (call c a) cs
  end.

(** What a program of [Set] calls keeps true of the records in the store
    when the clock shows [t]: each was last accessed at [t] or before and
    not before the zero time, and was used once at most. *)
Definition fresh_records (t : Time) (a : Adapter) : Prop :=
  forall k v, store a !! k = Some v ->
    time_le (accessed v) t /\ time_le time.zero (accessed v) /\ 0 <= used v <= 1.

(** ** Interleaved calls of [Set]

    [Set] takes and releases the mutex several times: around
    [len(a.store)], inside the [Release] that ends [evict] (once to look
    the key up, once to delete it), and around the insertion.  Between two
    of these sections another goroutine may run.  A step below is one
    section; the scan of [evict], which runs under no lock at all, is
    taken as one step too. *)
Module Interleaving.

Inductive pc :=
| AtLength                        (* before a.mutex.RLock(), len(a.store) *)
| AtCheck (length : Z)            (* before the test of length *)
| AtRelease (selectedKey : Z)     (* in Release, before the lookup *)
| AtDelete (selectedKey : Z)      (* in Release, before the delete *)
| AtInsert                        (* before a.store[key] = res.Bytes() *)
| Done.

Record goroutine := { running : SetCall; at_pc : pc }.

Definition start (c : SetCall) : goroutine :=
  {| running := c; at_pc := AtLength |}.

Definition goto (g : goroutine) (p : pc) : goroutine :=
  {| running := running g; at_pc := p |}.

(** One section of the call [g] is running, on the shared adapter. *)
Definition step (g : goroutine) (a : Adapter) : goroutine * Adapter :=
  let c := running g in
  match at_pc g with
  | AtLength => (goto g (AtCheck (len (store a))), a)
  | AtCheck length =>
      if (0 <? length) && (length =? capacity a)
      then (goto g (AtRelease
              (evict_select (algorithm a) (call_evict_now c) (call_range c))), a)
      else (goto g AtInsert, a)
  | AtRelease k =>
      match store a !! k with
      | Some _ => (goto g (AtDelete k), a)
      | None => (goto g AtInsert, a)
      end
  | AtDelete k => (goto g AtInsert, with_store a (delete k (store a)))
  | AtInsert =>
      let res := {| Value := call_response c; Expiration := call_expiration c;
                    LastAccess := call_now c; Frequency := 1 |} in
      (goto g Done,
       with_store a (<[call_key c := Response_Bytes res]> (store a)))
  | Done => (g, a)
  end.

(** Two goroutines and the adapter they share. *)
Record system := { first : goroutine; second : goroutine; shared : Adapter }.

(** A schedule says which goroutine runs its next section. *)
Inductive turn := First | Second.

Definition sched (s : system) (t : turn) : system :=
  match t with
  | First =>
      let (g, a) := step (first s) (shared s) in
      {| first := g; second := second s; shared := a |}
  | Second =>
      let (g, a) := step (second s) (shared s) in
      {| first := first s; second := g; shared := a |}
  end.

Definition exec (ts : list turn) (s : system) : system := fold_left sched ts s.

(** A goroutine running alone to the end of its call. *)
Definition alone (c : SetCall) (a : Adapter) : goroutine * Adapter :=
  let s := exec [First; First; First; First; First]
             {| first := start c; second := start c; shared := a |} in
  (first s, shared s).

End Interleaving.

(** ** Sample data, for the examples below *)

Definition seconds (s : Z) : Time := {| time.sec := s; time.nsec := 0 |}.

(** An entry that expires at second 1000. *)
Definition entry (v : byte) (accessed : Z) (freq : Z) : Response :=
  {| Value := [v]; Expiration := seconds 1000;
     LastAccess := seconds accessed; Frequency := freq |}.

Definition adapter (cap : Z) (alg : Algorithm) (l : list (Z * list byte))
  : Adapter :=
  {| capacity := cap; algorithm := alg; store := list_to_map l |}.

(** A call of [Set] at second [now], whose eviction reads the clock a
    second later. *)
Definition set_at (key : Z) (v : byte) (now : Z) (range : list (Z * list byte))
  : SetCall :=
  {| call_key := key; call_response := [v]; call_expiration := seconds 1000;
     call_now := seconds now; call_evict_now := seconds (now + 1);
     call_range := range |}.

(** Three calls of [Set], ten seconds apart, on keys 1, 2 and 3. *)
Definition three_sets : list SetCall :=
  [ set_at 1 x61 10 [];
    set_at 2 x62 20 [(1, Response_Bytes (entry x61 10 1))];
    set_at 3 x63 30 [(1, Response_Bytes (entry x61 10 1));
                     (2, Response_Bytes (entry x62 20 1))] ].

(** A record that goes wrong after two fields: the value "a" and an
    expiration at second 1000 are followed by a field number out of
    range. *)
Definition corrupted : list byte :=
  let m := gob.encodeInt gob.responseId
           ++ gob.encodeUint 1 ++ gob.encodeUint 1 ++ [x61]
           ++ gob.encodeUint 1 ++ gob.encodeUint 15
           ++ time.MarshalBinary (seconds 1000)
           ++ gob.encodeUint 9 in
  gob.encodeUint (Z.of_nat (length m)) ++ m.

(** The same three calls under a clock that shows second 10 at every
    reading. *)
Definition stalled (c : SetCall) : SetCall :=
  {| call_key := call_key c; call_response := call_response c;
     call_expiration := call_expiration c;
     call_now := seconds 10; call_evict_now := seconds 10;
     call_range := call_range c |}.

Definition three_sets_stalled : list SetCall :=
  [ stalled (set_at 1 x61 10 []);
    stalled (set_at 2 x62 10 [(1, Response_Bytes (entry x61 10 1))]);
    stalled (set_at 3 x63 10 [(1, Response_Bytes (entry x61 10 1));
                              (2, Response_Bytes (entry x62 10 1))]) ].

(** ** Repeated reads *)

(** Calls of [Get] on one key, one after the other, each with its two
    readings of the clock. *)
Definition Gets (readings : list (Time * Time)) (key : Z) (a : Adapter)
  : Adapter :=
  fold_left (fun a nn => snd (Adapter_Get nn.1 nn.2 key a)) readings a.

(** The new record [Set] writes. *)
Definition record (now : Time) (response : list byte) (expiration : Time)
  : list byte :=
  Response_Bytes {| Value := response; Expiration := expiration;
                    LastAccess := now; Frequency := 1 |}.

(** No entry of the walk can replace the initial candidate of [evict]:
    under least-recently-used none was accessed before the initial time,
    under most-recently-used all were accessed before the zero time, under
    least-frequently-used none was used less than 2147483647 times, under
    most-frequently-used all frequencies are negative; or the tag is none
    of the four, and the [switch] has no case for it. *)
Definition no_candidate (alg : Algorithm) (now : Time)
    (range : list (Z * list byte)) : Prop :=
  (alg = LRU /\ Forall (fun kv => time_le now (accessed kv.2)) range)
  \/ (alg = MRU /\ Forall (fun kv => time_lt (accessed kv.2) time.zero) range)
  \/ (alg = LFU /\ Forall (fun kv => 2147483647 <= used kv.2) range)
  \/ (alg = MFU /\ Forall (fun kv => used kv.2 < 0) range)
  \/ ~ recognized alg.

(** Two entries accessed at the same second and used equally often, and a
    third accessed later and used more. *)
Definition tied : list (Z * list byte) :=
  [(2, Response_Bytes (entry x62 10 4)); (1, Response_Bytes (entry x61 10 4));
   (3, Response_Bytes (entry x63 30 9))].

(** ** Programs of all four operations *)

Inductive Op :=
| OpSet (c : SetCall)
| OpGet (key : Z) (now1 now2 : Time)   (* with the two readings of the clock *)
| OpRelease (key : Z)
| OpPurge.

Definition perform (o : Op) (a : Adapter) : Adapter :=
  match o with
  | OpSet c => call c a
  | OpGet key now1 now2 => (Adapter_Get now1 now2 key a).2
  | OpRelease key => Adapter_Release key a
  | OpPurge => Adapter_Purge a
  end.

Definition perform_all (os : list Op) (a : Adapter) : Adapter :=
  fold_left (fun a o => perform o a) os a.

(** The last reading of the clock when [o] returns, [t] being the last one
    before it. *)
Definition clock_after (t : Time) (o : Op) : Time :=
  match o with
  | OpSet c => call_evict_now c
  | OpGet _ _ now2 => now2
  | OpRelease _ | OpPurge => t
  end.

(** The environment of a program of operations: as [ticking] for the calls
    of [Set]; the reading a [Get] stores is a value of [time.Time] and not
    before the last reading. *)
Fixpoint ticking_ops (t : Time) (a : Adapter) (os : list Op) : Prop :=
  match os with
  | [] => True
  | o :: os =>
      match o with
      | OpSet c =>
          time_lt t (call_now c) /\ time_le (call_now c) (call_evict_now c)
          /\ time.valid (call_now c) /\ time.valid (call_expiration c)
          /\ ranges (call_range c) a
      | OpGet _ _ now2 => time_le t now2 /\ time.valid now2
      | OpRelease _ | OpPurge => True
      end
      /\ ticking_ops (clock_after t o) (perform o a) os
  end.

(** What such a program keeps true of the records in the store when the
    clock shows [t] and [n] bounds the hits so far: the expiration is a
    value of [time.Time], the last access is at [t] or before and not
    before the zero time, the frequency is between 0 and [n]. *)
Definition kept_records (t : Time) (n : Z) (a : Adapter) : Prop :=
  forall k v, store a !! k = Some v ->
    time.valid (Expiration (BytesToResponse v))
    /\ time_le (accessed v) t /\ time_le time.zero (accessed v)
    /\ 0 <= used v <= n.

(** Sets, a hit, a release and more sets. *)
Definition mixed_program : list Op :=
  [ OpSet (set_at 1 x61 10 []);
    OpSet (set_at 2 x62 20 [(1, Response_Bytes (entry x61 10 1))]);
    OpGet 1 (seconds 25) (seconds 26);
    OpSet (set_at 3 x63 30 [(2, Response_Bytes (entry x62 20 1));
                            (1, Response_Bytes (entry x61 26 2))]);
    OpRelease 1;
    OpSet (set_at 4 x64 40 [(3, Response_Bytes (entry x63 30 1))]) ].

(** * Properties *)

(** ** Bytes and big-endian words *)

Lemma Z_of_byte_range b : 0 <= Z_of_byte b < 256.
Proof.
  unfold Z_of_byte. pose proof (Byte.to_N_bounded b). lia.
Qed.

Lemma Z_of_byte_of_Z z : Z_of_byte (byte_of_Z z) = z mod 256.
Proof.
  unfold Z_of_byte, byte_of_Z.
  assert (Hr : 0 <= z mod 256 < 256) by (apply Z.mod_pos_bound; lia).
  destruct (Byte.of_N (Z.to_N (z mod 256))) as [b|] eqn:E.
  - apply Byte.to_of_N in E. rewrite E. lia.
  - apply Byte.of_N_None_iff in E. lia.
Qed.

Lemma byte_of_Z_of_byte b : byte_of_Z (Z_of_byte b) = b.
Proof.
  unfold byte_of_Z. rewrite Z.mod_small by apply Z_of_byte_range.
  unfold Z_of_byte. rewrite N2Z.id, Byte.of_to_N. reflexivity.
Qed.

Lemma lor_shiftl_byte a c :
  0 <= c < 256 -> Z.lor (Z.shiftl a 8) c = a * 256 + c.
Proof.
  intros Hc. rewrite Z.shiftl_mul_pow2 by lia.
  change (2 ^ 8) with 256.
  rewrite <- Z.lxor_lor, <- Z.add_nocarry_lxor; try reflexivity.
  all: apply Z.bits_inj'; intros n Hn; rewrite Z.land_spec, Z.bits_0.
  all: destruct (Z.lt_ge_cases n 8) as [Hlt|Hge].
  all: try (change 256 with (2 ^ 8); rewrite Z.mul_pow2_bits_low by lia;
            reflexivity).
  all: replace c with (c mod 2 ^ 8) by (apply Z.mod_small; simpl; lia).
  all: rewrite Z.mod_pow2_bits_high by lia; apply andb_false_r.
Qed.

Lemma be_fold_bytes n x acc :
  fold_left (fun x b => Z.lor (Z.shiftl x 8) (Z_of_byte b)) (be_bytes n x) acc
  = acc * 2 ^ (8 * Z.of_nat n) + x mod 2 ^ (8 * Z.of_nat n).
Proof.
  revert acc. induction n as [|n IH]; intros acc.
  - simpl. rewrite Z.mod_1_r. lia.
  - cbn [be_bytes fold_left]. rewrite IH, Z_of_byte_of_Z.
    rewrite lor_shiftl_byte by (apply Z.mod_pos_bound; lia).
    rewrite Z.shiftr_div_pow2 by lia.
    replace (8 * Z.of_nat (S n)) with (8 * Z.of_nat n + 8) by lia.
    rewrite Z.pow_add_r by lia. change (2 ^ 8) with 256.
    assert (Hp : 0 < 2 ^ (8 * Z.of_nat n)) by (apply Z.pow_pos_nonneg; lia).
    rewrite (Z.rem_mul_r x (2 ^ (8 * Z.of_nat n)) 256) by lia.
    ring.
Qed.

Lemma be_value_bytes n x : be_value (be_bytes n x) = x mod 2 ^ (8 * Z.of_nat n).
Proof. unfold be_value. rewrite be_fold_bytes. lia. Qed.

Lemma length_be_bytes n x : length (be_bytes n x) = n.
Proof. induction n; simpl; congruence. Qed.

Lemma drop_be_bytes k m x : drop k (be_bytes (k + m) x) = be_bytes m x.
Proof. induction k; simpl; auto. Qed.

Lemma to_signed_small w x :
  0 < w -> - 2 ^ (w - 1) <= x < 2 ^ (w - 1) -> to_signed w (x mod 2 ^ w) = x.
Proof.
  intros Hw Hx. unfold to_signed.
  assert (H2 : 2 ^ w = 2 * 2 ^ (w - 1)).
  { rewrite <- Z.pow_succ_r by lia. f_equal. lia. }
  rewrite Z.mod_mod by lia.
  destruct (Z.lt_ge_cases x 0) as [Hneg|Hpos].
  - replace (x mod 2 ^ w) with (x + 2 ^ w).
    + destruct (Z.ltb_spec (x + 2 ^ w) (2 ^ (w - 1))); lia.
    + apply (Z.mod_unique x (2 ^ w) (-1)); lia.
  - rewrite Z.mod_small by lia.
    destruct (Z.ltb_spec x (2 ^ (w - 1))); lia.
Qed.

(** ** gob's integers *)

Lemma decodeUint_encodeUint x rest :
  0 <= x < 2 ^ 64 -> gob.decodeUint (gob.encodeUint x ++ rest) = inr (x, rest).
Proof.
  intros Hx. unfold gob.encodeUint.
  destruct (Z.leb_spec x 127) as [Hs|Hl].
  - cbn [app gob.decodeUint]. rewrite Z_of_byte_of_Z, Z.mod_small by lia.
    destruct (Z.leb_spec x 127); [reflexivity | lia].
  - unfold gob.LeadingZeros64. destruct (Z.eqb_spec x 0) as [|_]; [lia|].
    rewrite Z.shiftr_div_pow2 by lia. change (2 ^ 3) with 8.
    set (bc := (63 - Z.log2 x) / 8).
    assert (Hlog : 7 <= Z.log2 x < 64).
    { split.
      - change 7 with (Z.log2 128). apply Z.log2_le_mono. lia.
      - apply Z.log2_lt_pow2; lia. }
    assert (Hbc : 0 <= bc <= 7 /\ 8 * bc <= 63 - Z.log2 x).
    { unfold bc. pose proof (Z.mul_div_le (63 - Z.log2 x) 8).
      assert (0 <= (63 - Z.log2 x) / 8) by (apply Z.div_pos; lia).
      assert ((63 - Z.log2 x) / 8 <= 56 / 8) by (apply Z.div_le_mono; lia).
      change (56 / 8) with 7 in *. lia. }
    destruct Hbc as [Hbc Hbc8].
    cbn [app gob.decodeUint]. rewrite Z_of_byte_of_Z.
    unfold gob.uint64Size.
    replace ((bc - 8) mod 256) with (bc + 248)
      by (apply (Z.mod_unique (bc - 8) 256 (-1)); lia).
    destruct (Z.leb_spec (bc + 248) 127); [lia|].
    replace (256 - (bc + 248)) with (8 - bc) by lia.
    destruct (Z.ltb_spec 8 (8 - bc)); [lia|].
    replace 8%nat with (Z.to_nat bc + Z.to_nat (8 - bc))%nat by lia.
    rewrite drop_be_bytes.
    rewrite length_app, length_be_bytes.
    destruct (Z.ltb_spec (Z.of_nat (Z.to_nat (8 - bc) + length rest)) (8 - bc));
      [lia|].
    rewrite take_app_length' by (symmetry; apply length_be_bytes).
    rewrite drop_app_length' by (symmetry; apply length_be_bytes).
    rewrite be_value_bytes, Z.mod_small; [reflexivity|].
    split; [lia|].
    apply Z.lt_le_trans with (2 ^ (Z.log2 x + 1)).
    + apply Z.log2_spec. lia.
    + apply Z.pow_le_mono_r; lia.
Qed.

Lemma decodeInt_encodeInt i rest :
  - 2 ^ 63 <= i < 2 ^ 63 -> gob.decodeInt (gob.encodeInt i ++ rest) = inr (i, rest).
Proof.
  intros Hi. unfold gob.encodeInt, gob.decodeInt.
  destruct (Z.ltb_spec i 0) as [Hneg|Hpos].
  - assert (Hl : Z.lnot i = - i - 1) by (unfold Z.lnot; lia).
    rewrite Hl, Z.mod_small by lia.
    replace (Z.lor ((- i - 1) * 2) 1) with (2 * (- i - 1) + 1).
    2:{ rewrite <- Z.lxor_lor, <- Z.add_nocarry_lxor; try lia.
        all: apply Z.bits_inj'; intros n Hn; rewrite Z.land_spec, Z.bits_0.
        all: destruct (Z.eq_dec n 0) as [->|Hn0].
        all: try (rewrite Z.mul_comm, Z.testbit_even_0; reflexivity).
        all: replace 1 with (1 mod 2 ^ 1) by reflexivity.
        all: rewrite Z.mod_pow2_bits_high by lia; apply andb_false_r. }
    rewrite decodeUint_encodeUint by lia.
    rewrite Z.testbit_odd_0.
    rewrite Z.shiftr_div_pow2 by lia. change (2 ^ 1) with 2.
    replace ((2 * (- i - 1) + 1) / 2) with (- i - 1).
    2:{ apply (Z.div_unique _ 2 _ 1); lia. }
    f_equal. f_equal. unfold Z.lnot. lia.
  - rewrite Z.mod_small by lia.
    rewrite decodeUint_encodeUint by lia.
    rewrite Z.mul_comm, Z.testbit_even_0.
    rewrite Z.shiftr_div_pow2 by lia. change (2 ^ 1) with 2.
    rewrite Z.mul_comm, Z.div_mul by lia. reflexivity.
Qed.

(** ** The binary form of a [Time] *)

Lemma length_MarshalBinary t : length (time.MarshalBinary t) = 15%nat.
Proof.
  unfold time.MarshalBinary. cbn [length].
  rewrite !length_app, !length_be_bytes. reflexivity.
Qed.

Lemma UnmarshalBinary_MarshalBinary t :
  time.valid t -> time.UnmarshalBinary (time.MarshalBinary t) = Some t.
Proof.
  intros [Hs Hn]. unfold time.UnmarshalBinary.
  pose proof (length_MarshalBinary t) as Hlen.
  unfold time.MarshalBinary in *.
  rewrite Hlen. rewrite Z_of_byte_of_Z.
  change (time.timeBinaryVersionV1 mod 256) with 1. cbn -[be_bytes be_value to_signed].
  rewrite take_app_length' by (symmetry; apply length_be_bytes).
  rewrite drop_app_length' by (symmetry; apply length_be_bytes).
  rewrite take_app_length' by (symmetry; apply length_be_bytes).
  rewrite !be_value_bytes.
  change (8 * Z.of_nat 8) with 64. change (8 * Z.of_nat 4) with 32.
  rewrite !to_signed_small by (simpl; lia).
  destruct t; reflexivity.
Qed.

Lemma IsZero_true t : time.IsZero t = true -> t = time.zero.
Proof.
  destruct t as [s n]. unfold time.IsZero, time.zero. cbn.
  intros H. apply andb_true_iff in H as [Hs Hn].
  apply Z.eqb_eq in Hs, Hn. congruence.
Qed.

(** ** Decoding what the encoder wrote *)

Lemma encodeUint_cons x : exists c l, gob.encodeUint x = c :: l.
Proof. unfold gob.encodeUint. destruct (x <=? 127); eauto. Qed.

Lemma getLength_encodeUint n rest :
  0 <= n < gob.tooBig -> n <= Z.of_nat (length rest) ->
  gob.getLength (gob.encodeUint n ++ rest) = Some (n, rest).
Proof.
  intros Hn Hlen. unfold gob.getLength, gob.tooBig in *.
  rewrite decodeUint_encodeUint by lia.
  destruct (Z.leb_spec (2 ^ 63) n); [lia|].
  destruct (Z.ltb_spec (Z.of_nat (length rest)) n); [lia|].
  destruct (Z.leb_spec (2 ^ 33) n); [lia|]. reflexivity.
Qed.

Lemma decodeField_Value r v rest :
  Z.of_nat (length v) < gob.tooBig ->
  gob.decodeField 0 r (gob.encodeUint (Z.of_nat (length v)) ++ v ++ rest)
  = inr ({| Value := v; Expiration := Expiration r;
            LastAccess := LastAccess r; Frequency := Frequency r |}, rest).
Proof.
  intros Hv. unfold gob.decodeField. cbn [Z.eqb].
  rewrite getLength_encodeUint by (rewrite ?length_app; lia).
  rewrite Nat2Z.id, take_app_length, drop_app_length. reflexivity.
Qed.

Lemma decodeField_Time i r t rest :
  i = 1 \/ i = 2 -> time.valid t ->
  gob.decodeField i r
    (gob.encodeUint (Z.of_nat (length (time.MarshalBinary t)))
       ++ time.MarshalBinary t ++ rest)
  = inr (if i =? 1
         then {| Value := Value r; Expiration := t;
                 LastAccess := LastAccess r; Frequency := Frequency r |}
         else {| Value := Value r; Expiration := Expiration r;
                 LastAccess := t; Frequency := Frequency r |}, rest).
Proof.
  intros Hi Ht. unfold gob.decodeField.
  replace (i =? 0) with false by (destruct Hi; subst; reflexivity).
  replace ((i =? 1) || (i =? 2)) with true by (destruct Hi; subst; reflexivity).
  rewrite getLength_encodeUint.
  - rewrite Nat2Z.id, take_app_length, drop_app_length.
    rewrite UnmarshalBinary_MarshalBinary by assumption. reflexivity.
  - rewrite length_MarshalBinary. unfold gob.tooBig. simpl. lia.
  - rewrite length_app. lia.
Qed.

Lemma decodeField_Frequency r v rest :
  - 2 ^ 63 <= v < 2 ^ 63 ->
  gob.decodeField 3 r (gob.encodeInt v ++ rest)
  = inr ({| Value := Value r; Expiration := Expiration r;
            LastAccess := LastAccess r; Frequency := v |}, rest).
Proof.
  intros Hv. unfold gob.decodeField. cbn [Z.eqb orb].
  rewrite decodeInt_encodeInt by assumption. reflexivity.
Qed.

(** One round of [decodeStruct] on a field the encoder wrote. *)
Lemma decodeStruct_step fuel fieldnum r delta payload rest r' :
  0 < delta -> -1 <= fieldnum -> fieldnum + delta < gob.numInstr ->
  gob.decodeField (fieldnum + delta) r (payload ++ rest) = inr (r', rest) ->
  gob.decodeStruct (S fuel) fieldnum r (gob.encodeUint delta ++ payload ++ rest)
  = gob.decodeStruct fuel (fieldnum + delta) r' rest.
Proof.
  intros Hd Hf Hlt Hfield. unfold gob.numInstr in *.
  pose proof (decodeUint_encodeUint delta (payload ++ rest)) as Hu.
  destruct (encodeUint_cons delta) as (c & l & Hc).
  rewrite Hc in *. cbn [app gob.decodeStruct].
  cbn [app] in Hu. rewrite Hu by lia.
  destruct (Z.leb_spec (2 ^ 63) delta); [lia|].
  destruct (Z.eqb_spec delta 0); [lia|].
  unfold gob.numInstr.
  destruct (Z.leb_spec (4 - delta) fieldnum); [lia|].
  rewrite Hfield. reflexivity.
Qed.

(** The round that reads the terminator. *)
Lemma decodeStruct_end fuel fieldnum r rest :
  gob.decodeStruct (S fuel) fieldnum r (gob.encodeUint 0 ++ rest) = (r, None).
Proof. reflexivity. Qed.

(** The length of the buffer is fuel enough. *)
Lemma decodeUint_length buf x rest :
  gob.decodeUint buf = inr (x, rest) -> (length rest < length buf)%nat.
Proof.
  destruct buf as [|c buf]; [discriminate|]. cbn [gob.decodeUint].
  destruct (Z_of_byte c <=? 127).
  - intros [= <- <-]. simpl. lia.
  - destruct (gob.uint64Size <? 256 - Z_of_byte c); [discriminate|].
    destruct (Z.of_nat (length buf) <? 256 - Z_of_byte c); [discriminate|].
    intros [= <- <-]. rewrite length_drop. simpl. lia.
Qed.

Lemma decodeField_length i r buf r' rest :
  gob.decodeField i r buf = inr (r', rest) -> (length rest <= length buf)%nat.
Proof.
  unfold gob.decodeField, gob.getLength, gob.decodeInt.
  destruct (i =? 0); [|destruct ((i =? 1) || (i =? 2))].
  all: destruct (gob.decodeUint buf) as [e|[n b']] eqn:E; try discriminate.
  all: apply decodeUint_length in E.
  all: repeat match goal with
         | |- context [if ?c then _ else _] => destruct c
         | |- context [match ?c with Some _ => _ | None => _ end] => destruct c
         end; try discriminate.
  all: intros [= <- <-]; rewrite ?length_drop; lia.
Qed.

Lemma decodeStruct_fuel fuel fuel' fieldnum r buf :
  (length buf <= fuel)%nat -> (length buf <= fuel')%nat ->
  gob.decodeStruct fuel fieldnum r buf = gob.decodeStruct fuel' fieldnum r buf.
Proof.
  revert fuel' fieldnum r buf.
  induction fuel as [|fuel IH]; intros fuel' fieldnum r buf Hlen Hlen'.
  - destruct buf; [destruct fuel'; reflexivity | simpl in Hlen; lia].
  - destruct buf as [|c buf]; [destruct fuel'; reflexivity|].
    destruct fuel' as [|fuel']; [simpl in Hlen'; lia|].
    cbn [length gob.decodeStruct] in *.
    destruct (gob.decodeUint (c :: buf)) as [e|[delta buf']] eqn:E;
      [reflexivity|].
    apply decodeUint_length in E. cbn [length] in *.
    repeat match goal with
      | |- context [if ?c then _ else _] => destruct c; [reflexivity|]
      end.
    destruct (gob.decodeField (fieldnum + delta) r buf') as [e|[r' buf'']] eqn:F;
      [reflexivity|].
    apply decodeField_length in F.
    apply IH; lia.
Qed.

Lemma decodeStruct_Value fuel r v rest :
  Z.of_nat (length v) < gob.tooBig ->
  gob.decodeStruct (S fuel) (-1) r
    (gob.encodeUint (0 - -1) ++ gob.encodeUint (Z.of_nat (length v)) ++ v ++ rest)
  = gob.decodeStruct fuel 0
      {| Value := v; Expiration := Expiration r;
         LastAccess := LastAccess r; Frequency := Frequency r |} rest.
Proof.
  intros Hv.
  rewrite (app_assoc (gob.encodeUint (Z.of_nat _))).
  erewrite decodeStruct_step; [reflexivity|lia|lia|reflexivity|].
  rewrite <- app_assoc. apply decodeField_Value, Hv.
Qed.

Lemma decodeStruct_Time fuel fieldnum i r t rest :
  i = 1 \/ i = 2 -> -1 <= fieldnum < i -> time.valid t ->
  gob.decodeStruct (S fuel) fieldnum r
    (gob.encodeUint (i - fieldnum)
       ++ gob.encodeUint (Z.of_nat (length (time.MarshalBinary t)))
       ++ time.MarshalBinary t ++ rest)
  = gob.decodeStruct fuel i
      (if i =? 1
       then {| Value := Value r; Expiration := t;
               LastAccess := LastAccess r; Frequency := Frequency r |}
       else {| Value := Value r; Expiration := Expiration r;
               LastAccess := t; Frequency := Frequency r |}) rest.
Proof.
  intros Hi Hf Ht.
  rewrite (app_assoc (gob.encodeUint (Z.of_nat _))).
  replace i with (fieldnum + (i - fieldnum)) at 2 3 by lia.
  apply decodeStruct_step; try lia.
  - unfold gob.numInstr. lia.
  - replace (fieldnum + (i - fieldnum)) with i by lia.
    rewrite <- app_assoc. apply decodeField_Time; assumption.
Qed.

Lemma decodeStruct_Frequency fuel fieldnum r v rest :
  -1 <= fieldnum < 3 -> - 2 ^ 63 <= v < 2 ^ 63 ->
  gob.decodeStruct (S fuel) fieldnum r
    (gob.encodeUint (3 - fieldnum) ++ gob.encodeInt v ++ rest)
  = gob.decodeStruct fuel 3
      {| Value := Value r; Expiration := Expiration r;
         LastAccess := LastAccess r; Frequency := v |} rest.
Proof.
  intros Hf Hv.
  replace 3 with (fieldnum + (3 - fieldnum)) at 2 by lia.
  apply decodeStruct_step; try lia.
  - unfold gob.numInstr. lia.
  - replace (fieldnum + (3 - fieldnum)) with 3 by lia.
    apply decodeField_Frequency, Hv.
Qed.

Lemma length_encodeUint x : (1 <= length (gob.encodeUint x) <= 9)%nat.
Proof.
  unfold gob.encodeUint. destruct (x <=? 127); cbn [length].
  - lia.
  - rewrite length_drop, length_be_bytes. lia.
Qed.

Lemma length_encodeInt x : (1 <= length (gob.encodeInt x) <= 9)%nat.
Proof. unfold gob.encodeInt. destruct (x <? 0); apply length_encodeUint. Qed.

(** A message is its value and at most 57 bytes more. *)
Lemma length_message r :
  (length (gob.message r) <= length (Value r) + 57)%nat.
Proof.
  unfold gob.message, gob.encodeStruct, gob.encStructTerminator, gob.encInt,
    gob.encGobEncoder, gob.encUint8Array, gob.write, gob.update.
  assert (Hid : length (gob.encodeInt gob.responseId) = 2%nat) by reflexivity.
  repeat match goal with
    | |- context [if ?c then _ else _] => destruct c
    end; cbn [gob.b gob.fieldnum]; rewrite ?length_MarshalBinary;
  rewrite !length_app, ?length_MarshalBinary, Hid;
  repeat match goal with
    | |- context [length (gob.encodeUint ?x)] =>
        lazymatch x with context [Value] => fail | _ => idtac end;
        let n := eval vm_compute in (length (gob.encodeUint x)) in
        change (length (gob.encodeUint x)) with n
    | |- context [length (gob.encodeUint ?x)] =>
        pose proof (length_encodeUint x);
        generalize dependent (length (gob.encodeUint x)); intros
    | |- context [length (gob.encodeInt ?x)] =>
        pose proof (length_encodeInt x);
        generalize dependent (length (gob.encodeInt x)); intros
    end; try lia.
Qed.

Lemma valid_entry_message r :
  valid_entry r -> Z.of_nat (length (gob.message r)) < gob.tooBig.
Proof.
  intros (_ & _ & _ & H). pose proof (length_message r). lia.
Qed.

(** The struct part of a message decodes to the entry it was made from. *)
Lemma length_message_Value r :
  (length (Value r) <= length (gob.message r))%nat.
Proof.
  unfold gob.message, gob.encodeStruct, gob.encStructTerminator, gob.encInt,
    gob.encGobEncoder, gob.encUint8Array, gob.write, gob.update.
  destruct (0 <? Z.of_nat (length (Value r))) eqn:E.
  - repeat match goal with
      | |- context [if ?c then _ else _] => destruct c
      end; cbn [gob.b gob.fieldnum]; rewrite !length_app; lia.
  - apply Z.ltb_ge in E. lia.
Qed.

Lemma decodeStruct_message_len r fuel :
  time.valid (Expiration r) -> time.valid (LastAccess r) ->
  - 2 ^ 63 <= Frequency r < 2 ^ 63 ->
  Z.of_nat (length (gob.message r)) < gob.tooBig ->
  (5 <= fuel)%nat ->
  exists fields,
    gob.message r = gob.encodeInt gob.responseId ++ fields
    /\ gob.decodeStruct fuel (-1) zeroResponse fields = (r, None).
Proof.
  intros He Hl Hf Hm Hfuel.
  pose proof (length_message_Value r) as Hv.
  do 5 (destruct fuel as [|fuel]; [lia|]).
  destruct r as [v e l f]. cbn [Value Expiration LastAccess Frequency] in *.
  unfold gob.message, gob.encodeStruct, gob.encStructTerminator, gob.encInt,
    gob.encGobEncoder, gob.encUint8Array, gob.write, gob.update.
  cbn [Value Expiration LastAccess Frequency].
  destruct (0 <? Z.of_nat (length v)) eqn:Ev;
    [|assert (v = []) as -> by (apply Z.ltb_ge in Ev; destruct v; simpl in *;
                                [reflexivity | lia])];
  (destruct (time.IsZero e) eqn:Ee; [apply IsZero_true in Ee as ->|]);
  (destruct (time.IsZero l) eqn:El; [apply IsZero_true in El as ->|]);
  (destruct (Z.eqb_spec f 0) as [->|Hf0]);
  cbn [gob.b gob.fieldnum]; rewrite <- ?app_assoc;
  (eexists; split; [reflexivity|]);
  rewrite ?decodeStruct_Value by lia; cbn [Value Expiration LastAccess Frequency];
  rewrite ?(decodeStruct_Time _ _ 1) by (auto; lia);
  cbn [Value Expiration LastAccess Frequency Z.eqb Pos.eqb];
  rewrite ?(decodeStruct_Time _ _ 2) by (auto; lia);
  cbn [Value Expiration LastAccess Frequency Z.eqb Pos.eqb];
  rewrite ?decodeStruct_Frequency by lia;
  cbn [Value Expiration LastAccess Frequency];
  (rewrite <- (app_nil_r (gob.encodeUint 0)) at 1 || idtac);
  apply decodeStruct_end.
Qed.

Lemma decodeStruct_message r fuel :
  valid_entry r -> (5 <= fuel)%nat ->
  exists fields,
    gob.message r = gob.encodeInt gob.responseId ++ fields
    /\ gob.decodeStruct fuel (-1) zeroResponse fields = (r, None).
Proof.
  intros Hr. pose proof (valid_entry_message r Hr).
  destruct Hr as (He & Hl & Hf & _).
  apply decodeStruct_message_len; assumption.
Qed.


Lemma Decode_empty r : gob.Decode [] r = (r, Some gob.EOF).
Proof. reflexivity. Qed.

Lemma Decode_Encode r : valid_entry r -> gob.Decode (gob.Encode r) zeroResponse = (r, None).
Proof.
  intros Hr.
  destruct (decodeStruct_message r (5 + length (gob.message r)) Hr)
    as (fields & Hm & Hd); [lia|].
  apply valid_entry_message in Hr as Hlen.
  unfold gob.Encode, gob.Decode.
  destruct (Z.leb_spec gob.tooBig (Z.of_nat (length (gob.message r)))); [lia|].
  rewrite decodeUint_encodeUint by (unfold gob.tooBig in *; lia).
  destruct (Z.leb_spec gob.tooBig (Z.of_nat (length (gob.message r)))); [lia|].
  rewrite Z.ltb_irrefl, Nat2Z.id, firstn_all.
  rewrite Hm in *. rewrite decodeInt_encodeInt by (unfold gob.responseId; lia).
  rewrite Z.eqb_refl.
  rewrite <- Hd. apply decodeStruct_fuel; rewrite ?length_app; lia.
Qed.

(** An entry too long for a gob message is stored as the empty stream. *)
Lemma Encode_tooBig r :
  gob.tooBig <= Z.of_nat (length (gob.message r)) -> gob.Encode r = [].
Proof.
  intros H. unfold gob.Encode.
  destruct (Z.leb_spec gob.tooBig (Z.of_nat (length (gob.message r))));
    [reflexivity | lia].
Qed.

Lemma BytesToResponse_Bytes r :
  valid_entry r -> BytesToResponse (Response_Bytes r) = r.
Proof.
  intros Hr. unfold BytesToResponse, Response_Bytes.
  rewrite Decode_Encode by assumption. reflexivity.
Qed.

(** Whatever the length of the value, the stored record decodes to the
    entry or, when gob refused to write it, to the zero entry. *)
Lemma BytesToResponse_Bytes_cases r :
  time.valid (Expiration r) -> time.valid (LastAccess r) ->
  - 2 ^ 63 <= Frequency r < 2 ^ 63 ->
  BytesToResponse (Response_Bytes r) = r
  \/ BytesToResponse (Response_Bytes r) = zeroResponse.
Proof.
  intros He Hl Hf.
  destruct (Z.le_gt_cases gob.tooBig (Z.of_nat (length (gob.message r))))
    as [Hbig|Hsmall].
  - right. unfold BytesToResponse, Response_Bytes.
    rewrite Encode_tooBig by assumption. reflexivity.
  - left. unfold BytesToResponse, Response_Bytes.
    destruct (decodeStruct_message_len r (5 + length (gob.message r)))
      as (fields & Hm & Hd); auto; [lia|].
    unfold gob.Encode, gob.Decode.
    destruct (Z.leb_spec gob.tooBig (Z.of_nat (length (gob.message r)))); [lia|].
    rewrite decodeUint_encodeUint by (unfold gob.tooBig in *; lia).
    destruct (Z.leb_spec gob.tooBig (Z.of_nat (length (gob.message r)))); [lia|].
    rewrite Z.ltb_irrefl, Nat2Z.id, firstn_all.
    rewrite Hm in *. rewrite decodeInt_encodeInt by (unfold gob.responseId; lia).
    rewrite Z.eqb_refl.
    erewrite decodeStruct_fuel; [rewrite Hd; reflexivity | |];
      rewrite ?length_app; lia.
Qed.

(** ** The clock *)

Ltac bool_Z :=
  repeat match goal with
    | H : context [?a <? ?b] |- _ => destruct (Z.ltb_spec a b)
    | |- context [?a <? ?b] => destruct (Z.ltb_spec a b)
    | H : context [?a =? ?b] |- _ => destruct (Z.eqb_spec a b)
    | |- context [?a =? ?b] => destruct (Z.eqb_spec a b)
    | H : context [?a <=? ?b] |- _ => destruct (Z.leb_spec a b)
    | |- context [?a <=? ?b] => destruct (Z.leb_spec a b)
    end;
  cbn [orb andb negb] in *; try discriminate; try reflexivity; try lia.

Ltac time_order :=
  unfold time_lt, time_le, time.Before, time.After, time.Equal, time.zero in *;
  repeat match goal with t : Time |- _ => destruct t end;
  cbn [time.sec time.nsec] in *; bool_Z.

Lemma time_lt_le_trans t u v : time_lt t u -> time_le u v -> time_lt t v.
Proof. time_order. Qed.

Lemma time_le_lt_trans t u v : time_le t u -> time_lt u v -> time_lt t v.
Proof. time_order. Qed.

Lemma time_le_trans t u v : time_le t u -> time_le u v -> time_le t v.
Proof. time_order. Qed.

Lemma time_lt_le t u : time_lt t u -> time_le t u.
Proof. time_order. Qed.

Lemma time_le_refl t : time_le t t.
Proof. time_order. Qed.

Lemma After_Before t u : time.After t u = time.Before u t.
Proof. time_order. Qed.

Lemma Equal_eq t u : time.Equal t u = true <-> t = u.
Proof.
  destruct t, u. unfold time.Equal. cbn. split.
  - intros H. apply andb_true_iff in H as [H1 H2].
    apply Z.eqb_eq in H1, H2. congruence.
  - intros [= -> ->]. rewrite !Z.eqb_refl. reflexivity.
Qed.

(** ** The operations on the store *)

Lemma store_Release key a : store (Adapter_Release key a) = delete key (store a).
Proof.
  unfold Adapter_Release. destruct (store a !! key) eqn:E; [reflexivity|].
  symmetry. apply delete_id. exact E.
Qed.

Lemma capacity_Release key a : capacity (Adapter_Release key a) = capacity a.
Proof. unfold Adapter_Release. destruct (store a !! key); reflexivity. Qed.

Lemma algorithm_Release key a : algorithm (Adapter_Release key a) = algorithm a.
Proof. unfold Adapter_Release. destruct (store a !! key); reflexivity. Qed.

Lemma Get_expired now1 now2 key a res :
  store a !! key = Some res ->
  time.After (Expiration (BytesToResponse res)) now1 = false ->
  Adapter_Get now1 now2 key a = (([], false), Adapter_Release key a).
Proof. intros Hk He. unfold Adapter_Get. rewrite Hk, He. reflexivity. Qed.

Lemma Get_valid now1 now2 key a res :
  store a !! key = Some res ->
  time.After (Expiration (BytesToResponse res)) now1 = true ->
  Adapter_Get now1 now2 key a
  = ((Value (BytesToResponse res), true),
     with_store a
       (<[key := Response_Bytes
                   {| Value := Value (BytesToResponse res);
                      Expiration := Expiration (BytesToResponse res);
                      LastAccess := now2;
                      Frequency := int (Frequency (BytesToResponse res) + 1) |}]>
          (store a))).
Proof. intros Hk He. unfold Adapter_Get. rewrite Hk, He. reflexivity. Qed.

(** What [Set] leaves in the store: the new record, on top of the map that
    the eviction, if any, left. *)
Lemma store_Set now evict_now range key response expiration a :
  store (Adapter_Set now evict_now range key response expiration a)
  = <[key := Response_Bytes {| Value := response; Expiration := expiration;
                               LastAccess := now; Frequency := 1 |}]>
      (if (0 <? len (store a)) && (len (store a) =? capacity a)
       then delete (evict_select (algorithm a) evict_now range) (store a)
       else store a).
Proof.
  unfold Adapter_Set, Adapter_evict.
  destruct ((0 <? len (store a)) && (len (store a) =? capacity a));
    cbn [with_store store]; rewrite ?store_Release; reflexivity.
Qed.

Lemma capacity_Set now evict_now range key response expiration a :
  capacity (Adapter_Set now evict_now range key response expiration a)
  = capacity a.
Proof.
  unfold Adapter_Set, Adapter_evict.
  destruct ((0 <? len (store a)) && (len (store a) =? capacity a));
    cbn [with_store capacity]; rewrite ?capacity_Release; reflexivity.
Qed.

Lemma algorithm_Set now evict_now range key response expiration a :
  algorithm (Adapter_Set now evict_now range key response expiration a)
  = algorithm a.
Proof.
  unfold Adapter_Set, Adapter_evict.
  destruct ((0 <? len (store a)) && (len (store a) =? capacity a));
    cbn [with_store algorithm]; rewrite ?algorithm_Release; reflexivity.
Qed.

Lemma int_small x : - 2 ^ 63 <= x < 2 ^ 63 -> int x = x.
Proof.
  intros Hx. unfold int.
  rewrite <- (to_signed_small 64 x) at 2 by (simpl; lia).
  unfold to_signed. rewrite Z.mod_mod by lia. reflexivity.
Qed.

(** * The claims *)

Ltac valid_now := repeat split; vm_compute; congruence.

(** C5: for every valid cache entry [e] (value bytes, expiration,
    lastAccess, frequency), decoding the encoding of [e] yields an entry
    equal to [e]: [BytesToResponse(e.Bytes()) == e]. *)
Theorem C5_roundtrip (e : Response) :
  valid_entry e -> BytesToResponse (Response_Bytes e) = e.
Proof. apply BytesToResponse_Bytes. Qed.

Lemma C5_roundtrip_witness :
  valid_entry (entry x61 10 3)
  /\ BytesToResponse (Response_Bytes (entry x61 10 3)) = entry x61 10 3.
Proof.
  split; [valid_now | apply (C5_roundtrip (entry x61 10 3)); valid_now].
Defined.

(** C6: a key stored by [Set] with an expiration that is not after the
    current time is a miss at the next [Get], which returns [(nil, false)]
    and leaves the adapter as [Release] of that key does, without the
    entry; with an expiration after the current time the [Get] returns the
    stored value and [true]. *)
Theorem C6_expiry (now evict_now : Time) (range : list (Z * list byte))
    (key : Z) (response : list byte) (expiration : Time) (a : Adapter)
    (now1 now2 : Time) :
  valid_entry {| Value := response; Expiration := expiration;
                 LastAccess := now; Frequency := 1 |} ->
  (time.After expiration now1 = false ->
   Adapter_Get now1 now2 key
     (Adapter_Set now evict_now range key response expiration a)
   = (([], false),
      Adapter_Release key
        (Adapter_Set now evict_now range key response expiration a))
   /\ store (Adapter_Release key
               (Adapter_Set now evict_now range key response expiration a))
        !! key = None)
  /\ (time.After expiration now1 = true ->
      fst (Adapter_Get now1 now2 key
             (Adapter_Set now evict_now range key response expiration a))
      = (response, true)).
Proof.
  intros Hv.
  set (a' := Adapter_Set now evict_now range key response expiration a).
  assert (Hk : store a' !! key
               = Some (Response_Bytes
                         {| Value := response; Expiration := expiration;
                            LastAccess := now; Frequency := 1 |})).
  { unfold a'. rewrite store_Set. apply lookup_insert_eq. }
  split; intros He.
  - split.
    + eapply Get_expired; [exact Hk|].
      rewrite BytesToResponse_Bytes by assumption. exact He.
    + rewrite store_Release. apply lookup_delete_eq.
  - erewrite Get_valid; [|exact Hk|].
    + rewrite BytesToResponse_Bytes by assumption. reflexivity.
    + rewrite BytesToResponse_Bytes by assumption. exact He.
Qed.

Lemma C6_expiry_witness :
  valid_entry {| Value := [x61]; Expiration := seconds 50;
                 LastAccess := seconds 60; Frequency := 1 |}
  /\ Adapter_Get (seconds 70) (seconds 71) 7
       (Adapter_Set (seconds 60) (seconds 61) [] 7 [x61] (seconds 50)
          (adapter 2 LRU []))
     = (([], false),
        Adapter_Release 7
          (Adapter_Set (seconds 60) (seconds 61) [] 7 [x61] (seconds 50)
             (adapter 2 LRU []))).
Proof.
  split; [valid_now|].
  apply (C6_expiry (seconds 60) (seconds 61) [] 7 [x61] (seconds 50)
           (adapter 2 LRU []) (seconds 70) (seconds 71));
    [valid_now | reflexivity].
Defined.

(** C4: for a key that is present and unexpired, [Get] returns the value and
    [true], and rewrites the entry of that key only: its lastAccess becomes
    the clock reading of the call, later than the one stored before, its
    frequency is one more, its value and expiration are what they were.
    The clock is assumed to have advanced since the entry was last
    accessed, and the frequency to be below the largest [int]. *)
Theorem C4_recency (now1 now2 : Time) (key : Z) (a : Adapter)
    (res : list byte) (r : Response) :
  store a !! key = Some res ->
  BytesToResponse res = r ->
  valid_entry r ->
  time.valid now2 ->
  time.After (Expiration r) now1 = true ->
  time_lt (LastAccess r) now2 ->
  Frequency r < 2 ^ 63 - 1 ->
  fst (Adapter_Get now1 now2 key a) = (Value r, true)
  /\ (exists res',
        store (snd (Adapter_Get now1 now2 key a)) !! key = Some res'
        /\ time_lt (LastAccess r) (LastAccess (BytesToResponse res'))
        /\ Frequency (BytesToResponse res') = Frequency r + 1
        /\ Value (BytesToResponse res') = Value r
        /\ Expiration (BytesToResponse res') = Expiration r)
  /\ (forall k, k <> key ->
        store (snd (Adapter_Get now1 now2 key a)) !! k = store a !! k).
Proof.
  intros Hk Hr (He & Hl & Hf & Hlen) Hnow Hvalid Hpast Hmax.
  rewrite (Get_valid now1 now2 key a res Hk) by (rewrite Hr; exact Hvalid).
  rewrite Hr. cbn [fst snd with_store store].
  split; [reflexivity|]. split.
  - eexists. split; [apply lookup_insert_eq|].
    rewrite BytesToResponse_Bytes.
    + cbn [LastAccess Frequency Value Expiration].
      rewrite int_small by lia. auto.
    + unfold valid_entry. cbn [LastAccess Frequency Value Expiration].
      rewrite int_small by lia. repeat split; try tauto; try lia;
        try apply He; try apply Hnow.
  - intros k Hne. apply lookup_insert_ne. congruence.
Qed.

Lemma C4_recency_witness :
  exists res',
    store (snd (Adapter_Get (seconds 20) (seconds 21) 7
                  (adapter 2 LRU [(7, Response_Bytes (entry x61 10 3))])))
      !! 7 = Some res'
    /\ Frequency (BytesToResponse res') = 3 + 1.
Proof.
  destruct (C4_recency (seconds 20) (seconds 21) 7
              (adapter 2 LRU [(7, Response_Bytes (entry x61 10 3))])
              (Response_Bytes (entry x61 10 3)) (entry x61 10 3))
    as (_ & (res' & H1 & _ & H2 & _) & _);
    [reflexivity | vm_compute; reflexivity | valid_now | valid_now
    | reflexivity | reflexivity | vm_compute; reflexivity |].
  exists res'. split; [exact H1 | exact H2].
Defined.

(** ** Construction *)

Lemma NewAdapter_configure cap alg :
  NewAdapter (configure cap alg)
  = match cap, alg with
    | Some c, Some g =>
        if c <=? 1 then inl (errCapacityRequired c)
        else if String.eqb g EmptyString then inl errAlgorithmNotSet
        else inr {| capacity := c; algorithm := g; store := ∅ |}
    | Some c, None =>
        if c <=? 1 then inl (errCapacityRequired c) else inl errAlgorithmNotSet
    | None, _ => inl errCapacityNotSet
    end.
Proof.
  unfold NewAdapter, configure, AdapterWithCapacity, AdapterWithAlgorithm.
  destruct cap as [c|], alg as [g|];
    cbn [app apply_options capacity algorithm]; try reflexivity.
  - destruct (c <=? 1) eqn:E; [reflexivity|].
    cbn [capacity algorithm]. rewrite E.
    destruct (String.eqb g EmptyString); reflexivity.
  - destruct (c <=? 1) eqn:E; [reflexivity|].
    cbn [capacity algorithm]. rewrite E. reflexivity.
Qed.

(** C8, as stated, fails: a capacity of 2 with the tag "FOO", which is none
    of LRU, MRU, LFU and MFU, makes [NewAdapter] return a store and no
    error. *)
Lemma C8_counterexample :
  ~ (forall (cap : Z) (alg : Algorithm),
       failed (NewAdapter (configure (Some cap) (Some alg)))
       <-> cap <= 1 \/ alg = EmptyString \/ ~ recognized alg).
Proof.
  intros H. destruct (H 2 "FOO"%string) as [_ Hback].
  apply Hback. right. right.
  intros [E|[E|[E|E]]]; discriminate E.
Qed.

(** C8, amended: [NewAdapter] returns an error (and no store) if and only
    if the capacity is unset or at most 1, or the policy is unset (the
    empty tag); it does not look further at the tag.  With a capacity above
    1 and any non-empty tag it returns the empty store with that capacity
    and tag. *)
Theorem C8_NewAdapter (cap : option Z) (alg : option Algorithm) :
  (failed (NewAdapter (configure cap alg)) <-> rejected cap alg)
  /\ (forall a,
        NewAdapter (configure cap alg) = inr a
        <-> exists c g,
              cap = Some c /\ alg = Some g /\ 1 < c /\ g <> EmptyString
              /\ a = {| capacity := c; algorithm := g; store := ∅ |}).
Proof.
  rewrite NewAdapter_configure. unfold rejected, failed.
  destruct cap as [c|], alg as [g|].
  - destruct (Z.leb_spec c 1) as [Hc|Hc];
      [|destruct (String.eqb_spec g EmptyString) as [Hg|Hg]].
    + split; [tauto|]. intros a. split; [discriminate|].
      intros (c' & g' & [= <-] & _ & H1 & _). lia.
    + split; [tauto|]. intros a. split; [discriminate|].
      intros (c' & g' & _ & [= <-] & _ & H2 & _). congruence.
    + split; [split; [tauto | intros [H|H]; [lia | congruence]]|].
      intros a. split.
      * intros [= <-]. exists c, g. auto.
      * intros (c' & g' & [= <-] & [= <-] & _ & _ & ->). reflexivity.
  - split.
    + destruct (c <=? 1); tauto.
    + intros a. split.
      * destruct (c <=? 1); discriminate.
      * intros (c' & g' & _ & [=] & _).
  - split; [tauto|]. intros a. split; [discriminate|].
    intros (c' & g' & [=] & _).
  - split; [tauto|]. intros a. split; [discriminate|].
    intros (c' & g' & [=] & _).
Qed.

(** ** Overwriting a key *)

Lemma ranges_list cap alg (l : list (Z * list byte)) :
  NoDup l.*1 -> ranges l (adapter cap alg l).
Proof.
  intros Hl. unfold ranges, adapter. cbn [store].
  symmetry. apply map_to_list_to_map. exact Hl.
Qed.

Ltac nodup_now := repeat constructor; rewrite ?elem_of_cons, ?elem_of_nil;
                  intuition discriminate.

(** C3, as stated, fails: in a least-recently-used store of capacity 2 that
    holds keys 1 and 2, [Set] on key 2, which is present, removes the entry
    of key 1. *)
Lemma C3_counterexample :
  let l := [(1, Response_Bytes (entry x61 10 1));
            (2, Response_Bytes (entry x62 20 1))] in
  let a := adapter 2 LRU l in
  ranges l a
  /\ is_Some (store a !! 2) /\ is_Some (store a !! 1)
  /\ store (Adapter_Set (seconds 30) (seconds 31) l 2 [x63] (seconds 1000) a)
       !! 1 = None.
Proof.
  cbv zeta. split; [apply ranges_list; nodup_now|].
  split; [eexists; vm_compute; reflexivity|].
  split; [eexists; vm_compute; reflexivity|].
  vm_compute. reflexivity.
Qed.

(** C3, amended: for a key already present, [Set] leaves every other entry
    as it is when the store is not at capacity; at capacity it evicts first,
    as for a new key: the entry the policy selects is removed before the
    key is written. *)
Theorem C3_overwrite (now evict_now : Time) (range : list (Z * list byte))
    (key : Z) (response : list byte) (expiration : Time) (a : Adapter) :
  is_Some (store a !! key) ->
  (len (store a) <> capacity a ->
   forall k, k <> key ->
     store (Adapter_Set now evict_now range key response expiration a) !! k
     = store a !! k)
  /\ (len (store a) = capacity a ->
      store (Adapter_Set now evict_now range key response expiration a)
      = <[key := Response_Bytes {| Value := response; Expiration := expiration;
                                   LastAccess := now; Frequency := 1 |}]>
          (delete (evict_select (algorithm a) evict_now range) (store a))).
Proof.
  intros [v Hk]. rewrite store_Set. split.
  - intros Hne k Hkk.
    destruct (Z.eqb_spec (len (store a)) (capacity a)) as [E|_]; [contradiction|].
    rewrite andb_false_r. apply lookup_insert_ne. congruence.
  - intros Heq. rewrite Heq, Z.eqb_refl, andb_true_r.
    assert (Hpos : 0 < len (store a)).
    { unfold len. assert (size (store a) <> 0%nat); [|lia].
      intros Hz. apply map_size_empty_iff in Hz. rewrite Hz in Hk.
      rewrite lookup_empty in Hk. discriminate. }
    rewrite <- Heq. destruct (Z.ltb_spec 0 (len (store a))); [reflexivity|lia].
Qed.

Lemma C3_overwrite_witness :
  is_Some (store (adapter 3 LRU [(1, [x00]); (2, [x01])]) !! 2)
  /\ store (Adapter_Set (seconds 30) (seconds 31) [] 2 [x63] (seconds 1000)
              (adapter 3 LRU [(1, [x00]); (2, [x01])])) !! 1
     = store (adapter 3 LRU [(1, [x00]); (2, [x01])]) !! 1.
Proof.
  assert (H2 : is_Some (store (adapter 3 LRU [(1, [x00]); (2, [x01])]) !! 2))
    by (eexists; vm_compute; reflexivity).
  split; [exact H2|].
  apply (C3_overwrite (seconds 30) (seconds 31) [] 2 [x63] (seconds 1000)
           (adapter 3 LRU [(1, [x00]); (2, [x01])]) H2).
  - vm_compute. congruence.
  - discriminate.
Defined.

(** ** The eviction scan *)

Lemma ranges_elem range a k v :
  ranges range a -> (k, v) ∈ range <-> store a !! k = Some v.
Proof.
  intros Hr. unfold ranges in Hr. rewrite Hr. apply elem_of_map_to_list.
Qed.

Lemma ranges_length range a : ranges range a -> Z.of_nat (length range) = len (store a).
Proof.
  intros Hr. unfold ranges in Hr. rewrite Hr, length_map_to_list. reflexivity.
Qed.

(** A visit keeps the selected key or selects the key it visits. *)
Lemma evict_visit_key alg s k v :
  selectedKey (evict_visit alg s (k, v)) = selectedKey s
  \/ selectedKey (evict_visit alg s (k, v)) = k.
Proof.
  unfold evict_visit.
  repeat match goal with
    | |- context [if ?c then _ else _] => destruct c
    end; cbn [selectedKey]; auto.
Qed.

Lemma evict_fold_key alg l s :
  selectedKey (fold_left (evict_visit alg) l s) = selectedKey s
  \/ selectedKey (fold_left (evict_visit alg) l s) ∈ l.*1.
Proof.
  revert s. induction l as [|[k v] l IH]; intros s; cbn [fold_left].
  - left. reflexivity.
  - destruct (IH (evict_visit alg s (k, v))) as [H|H].
    + rewrite H. destruct (evict_visit_key alg s k v) as [E|E]; rewrite E.
      * left. reflexivity.
      * right. cbn. apply elem_of_cons. left. reflexivity.
    + right. cbn. apply elem_of_cons. right. exact H.
Qed.

Lemma evict_visit_LRU s k v :
  evict_visit LRU s (k, v)
  = if time.Before (accessed v) (lastAccess s)
    then {| selectedKey := k; lastAccess := accessed v; frequency := frequency s |}
    else s.
Proof. reflexivity. Qed.

Lemma evict_visit_MFU s k v :
  evict_visit MFU s (k, v)
  = if frequency s <=? used v
    then {| selectedKey := k; lastAccess := lastAccess s; frequency := used v |}
    else s.
Proof. reflexivity. Qed.

(** The scan of least-recently-used: nothing is selected when no entry was
    accessed before the initial time; otherwise the first of the entries
    accessed earliest. *)
Lemma LRU_scan l s :
  (fold_left (evict_visit LRU) l s = s
   /\ Forall (fun kv => time_le (lastAccess s) (accessed kv.2)) l)
  \/ (exists l1 k v l2,
        l = l1 ++ (k, v) :: l2
        /\ selectedKey (fold_left (evict_visit LRU) l s) = k
        /\ lastAccess (fold_left (evict_visit LRU) l s) = accessed v
        /\ time_lt (accessed v) (lastAccess s)
        /\ Forall (fun kv => time_lt (accessed v) (accessed kv.2)) l1
        /\ Forall (fun kv => time_le (accessed v) (accessed kv.2)) l2).
Proof.
  revert s. induction l as [|[kx vx] l IH]; intros s; cbn [fold_left].
  - left. split; [reflexivity | constructor].
  - rewrite evict_visit_LRU.
    destruct (time.Before (accessed vx) (lastAccess s)) eqn:Epick.
    + right.
      destruct (IH {| selectedKey := kx; lastAccess := accessed vx;
                      frequency := frequency s |})
        as [[-> Hall] | (l1 & k & v & l2 & -> & Hk & Hla & Hlt & H1 & H2)];
        cbn [lastAccess selectedKey] in *.
      * exists [], kx, vx, l. repeat split; auto.
      * exists ((kx, vx) :: l1), k, v, l2. repeat split; auto.
        eapply time_lt_le_trans; [exact Hlt|]. apply time_lt_le. exact Epick.
    + destruct (IH s)
        as [[-> Hall] | (l1 & k & v & l2 & -> & Hk & Hla & Hlt & H1 & H2)].
      * left. split; [reflexivity|]. constructor; [exact Epick | exact Hall].
      * right. exists ((kx, vx) :: l1), k, v, l2. repeat split; auto.
        constructor; [|exact H1]. cbn.
        eapply time_lt_le_trans; [exact Hlt | exact Epick].
Qed.

(** The scan of most-frequently-used: nothing is selected when every
    frequency is below the initial one; otherwise the last of the entries
    used most. *)
Lemma MFU_scan l s :
  (fold_left (evict_visit MFU) l s = s
   /\ Forall (fun kv => used kv.2 < frequency s) l)
  \/ (exists l1 k v l2,
        l = l1 ++ (k, v) :: l2
        /\ selectedKey (fold_left (evict_visit MFU) l s) = k
        /\ frequency (fold_left (evict_visit MFU) l s) = used v
        /\ frequency s <= used v
        /\ Forall (fun kv => used kv.2 <= used v) l1
        /\ Forall (fun kv => used kv.2 < used v) l2).
Proof.
  revert s. induction l as [|[kx vx] l IH]; intros s; cbn [fold_left].
  - left. split; [reflexivity | constructor].
  - rewrite evict_visit_MFU.
    destruct (Z.leb_spec (frequency s) (used vx)) as [Epick|Epick].
    + right.
      destruct (IH {| selectedKey := kx; lastAccess := lastAccess s;
                      frequency := used vx |})
        as [[-> Hall] | (l1 & k & v & l2 & -> & Hk & Hfr & Hle & H1 & H2)];
        cbn [frequency selectedKey] in *.
      * exists [], kx, vx, l. repeat split; auto.
      * exists ((kx, vx) :: l1), k, v, l2. repeat split; auto; lia.
    + destruct (IH s)
        as [[-> Hall] | (l1 & k & v & l2 & -> & Hk & Hfr & Hle & H1 & H2)].
      * left. split; [reflexivity|]. constructor; [exact Epick | exact Hall].
      * right. exists ((kx, vx) :: l1), k, v, l2. repeat split; auto.
        constructor; [cbn; lia | exact H1].
Qed.

Lemma time_le_neq t u : time_le t u -> t <> u -> time_lt t u.
Proof.
  destruct t as [s n], u as [s' n']. intros Hle Hne.
  unfold time_le, time_lt, time.Before in *. cbn [time.sec time.nsec] in *.
  assert (s <> s' \/ n <> n') as Hd.
  { destruct (Z.eq_dec s s') as [->|]; [|auto].
    destruct (Z.eq_dec n n') as [->|]; [|auto]. contradiction. }
  bool_Z.
Qed.

Lemma at_capacity a :
  1 < capacity a -> len (store a) = capacity a ->
  (0 <? len (store a)) && (len (store a) =? capacity a) = true.
Proof. intros Hc Hl. rewrite Hl, Z.eqb_refl. bool_Z. Qed.

Lemma ranges_cons a range :
  ranges range a -> 0 < len (store a) -> exists k v l, range = (k, v) :: l.
Proof.
  intros Hr Hl. apply ranges_length in Hr.
  destruct range as [|[k v] l]; [cbn in Hr; lia | eauto].
Qed.

(** A key that is present and whose record has not expired is retrieved. *)
Lemma Get_found now1 now2 k v a :
  store a !! k = Some v ->
  time.After (Expiration (BytesToResponse v)) now1 = true ->
  fst (Adapter_Get now1 now2 k a) = (Value (BytesToResponse v), true).
Proof. intros Hk He. rewrite (Get_valid _ _ _ _ _ Hk He). reflexivity. Qed.

(** C2: in a least-recently-used store filled to capacity, whose entries
    have pairwise distinct lastAccess values, all before the clock reading
    of the eviction, [Set] with a key that is not in the store removes
    exactly one entry, the one with the smallest lastAccess; every other
    entry is in the store as before, and [Get] retrieves it as long as it
    has not expired. *)
Theorem C2_LRU (now evict_now : Time) (range : list (Z * list byte))
    (key : Z) (response : list byte) (expiration : Time) (a : Adapter) :
  algorithm a = LRU ->
  1 < capacity a ->
  len (store a) = capacity a ->
  ranges range a ->
  store a !! key = None ->
  (forall k v, store a !! k = Some v -> time_lt (accessed v) evict_now) ->
  (forall k1 v1 k2 v2,
     k1 <> k2 -> store a !! k1 = Some v1 -> store a !! k2 = Some v2 ->
     accessed v1 <> accessed v2) ->
  exists victim vv,
    store a !! victim = Some vv
    /\ (forall k v, k <> victim -> store a !! k = Some v ->
          time_lt (accessed vv) (accessed v))
    /\ store (Adapter_Set now evict_now range key response expiration a)
       = <[key := Response_Bytes {| Value := response; Expiration := expiration;
                                    LastAccess := now; Frequency := 1 |}]>
           (delete victim (store a))
    /\ store (Adapter_Set now evict_now range key response expiration a)
         !! victim = None
    /\ (forall k v, k <> victim -> store a !! k = Some v ->
          store (Adapter_Set now evict_now range key response expiration a) !! k
          = Some v
          /\ forall now1 now2,
               time.After (Expiration (BytesToResponse v)) now1 = true ->
               fst (Adapter_Get now1 now2 k
                      (Adapter_Set now evict_now range key response expiration a))
               = (Value (BytesToResponse v), true)).
Proof.
  intros Halg Hcap Hlen Hr Hkey Hpast Hdist.
  pose proof (at_capacity a Hcap Hlen) as Hfull.
  destruct (LRU_scan range (evict_init LRU evict_now))
    as [[_ Hall] | (l1 & victim & vv & l2 & Hsplit & Hsel & _ & _ & H1 & H2)].
  - exfalso.
    destruct (ranges_cons a range Hr) as (k0 & v0 & l & ->); [lia|].
    apply Forall_cons in Hall as [Hv0 _]. cbn in Hv0.
    assert (Hin : store a !! k0 = Some v0).
    { apply (ranges_elem _ _ _ _ Hr), elem_of_cons. auto. }
    specialize (Hpast _ _ Hin). revert Hv0 Hpast.
    generalize (accessed v0). intros. time_order.
  - assert (Hvic : store a !! victim = Some vv).
    { apply (ranges_elem _ _ _ _ Hr). rewrite Hsplit.
      apply elem_of_app. right. apply elem_of_cons. auto. }
    assert (Hstore :
      store (Adapter_Set now evict_now range key response expiration a)
      = <[key := Response_Bytes {| Value := response; Expiration := expiration;
                                   LastAccess := now; Frequency := 1 |}]>
          (delete victim (store a))).
    { rewrite store_Set, Hfull, Halg. unfold evict_select. rewrite Hsel.
      reflexivity. }
    assert (Hother : forall k v, k <> victim -> store a !! k = Some v ->
      store (Adapter_Set now evict_now range key response expiration a) !! k
      = Some v).
    { intros k v Hne Hk. rewrite Hstore.
      rewrite lookup_insert_ne by congruence.
      rewrite lookup_delete_ne by congruence. exact Hk. }
    exists victim, vv. split; [exact Hvic|]. split; [|split; [exact Hstore|split]].
    + intros k v Hne Hk.
      pose proof (proj2 (ranges_elem _ _ _ _ Hr) Hk) as Hin.
      rewrite Hsplit in Hin. apply elem_of_app in Hin as [Hin|Hin].
      * rewrite Forall_forall in H1. apply (H1 _ Hin).
      * apply elem_of_cons in Hin as [[= -> ->]|Hin]; [contradiction|].
        rewrite Forall_forall in H2. apply time_le_neq; [apply (H2 _ Hin)|].
        apply (Hdist victim vv k v); auto.
    + rewrite Hstore. rewrite lookup_insert_ne by congruence.
      apply lookup_delete_eq.
    + intros k v Hne Hk. split; [auto|].
      intros now1 now2 He. apply Get_found; auto.
Qed.

(** The entries of a sample adapter are those of its list. *)
Lemma adapter_lookup cap alg (l : list (Z * list byte)) k v :
  store (adapter cap alg l) !! k = Some v -> (k, v) ∈ l.
Proof. unfold adapter. cbn [store]. apply elem_of_list_to_map_2. Qed.

Ltac sample_entries :=
  repeat match goal with
    | H : store (adapter _ _ _) !! _ = Some _ |- _ =>
        apply adapter_lookup in H;
        repeat (apply elem_of_cons in H as [[= -> ->]|H]);
        [..|apply elem_of_nil in H; contradiction]
    end.

Lemma C2_LRU_witness :
  exists victim vv,
    store (adapter 2 LRU [(1, Response_Bytes (entry x61 10 1));
                          (2, Response_Bytes (entry x62 20 1))])
      !! victim = Some vv
    /\ accessed vv = seconds 10
    /\ store (Adapter_Set (seconds 30) (seconds 31)
                [(2, Response_Bytes (entry x62 20 1));
                 (1, Response_Bytes (entry x61 10 1))]
                3 [x63] (seconds 1000)
                (adapter 2 LRU [(1, Response_Bytes (entry x61 10 1));
                                (2, Response_Bytes (entry x62 20 1))]))
         !! victim = None.
Proof.
  destruct (C2_LRU (seconds 30) (seconds 31)
              [(2, Response_Bytes (entry x62 20 1));
               (1, Response_Bytes (entry x61 10 1))]
              3 [x63] (seconds 1000)
              (adapter 2 LRU [(1, Response_Bytes (entry x61 10 1));
                              (2, Response_Bytes (entry x62 20 1))]))
    as (victim & vv & Hv & Hmin & _ & Hgone & _).
  - reflexivity.
  - reflexivity.
  - vm_compute. reflexivity.
  - unfold ranges, adapter. cbn [store].
    rewrite map_to_list_to_map by nodup_now. apply Permutation_swap.
  - vm_compute. reflexivity.
  - intros k v H. sample_entries; vm_compute; reflexivity.
  - intros k1 v1 k2 v2 Hne H1 H2.
    sample_entries; try contradiction; vm_compute; discriminate.
  - exists victim, vv. split; [exact Hv|]. split; [|exact Hgone].
    pose proof Hv as Hv'. sample_entries.
    + reflexivity.
    + exfalso.
      assert (Hlt : time_lt (accessed (Response_Bytes (entry x62 20 1)))
                      (accessed (Response_Bytes (entry x61 10 1)))).
      { apply (Hmin 1); [discriminate | vm_compute; reflexivity]. }
      vm_compute in Hlt. discriminate.
Defined.

(** C7: in a most-frequently-used store filled to capacity, [Set] with a key
    that is not in the store removes exactly one entry, one with the
    largest frequency: the scan replaces its candidate by every entry whose
    frequency is greater than or equal to the candidate's, so among entries
    that tie for the largest frequency the one the traversal meets last is
    removed.  With pairwise distinct frequencies the entry removed is the
    one whose frequency is above all the others.  Frequencies are counts,
    so none is negative. *)
Theorem C7_MFU (now evict_now : Time) (range : list (Z * list byte))
    (key : Z) (response : list byte) (expiration : Time) (a : Adapter) :
  algorithm a = MFU ->
  1 < capacity a ->
  len (store a) = capacity a ->
  ranges range a ->
  store a !! key = None ->
  (forall k v, store a !! k = Some v -> 0 <= used v) ->
  exists l1 victim vv l2,
    range = l1 ++ (victim, vv) :: l2
    /\ store a !! victim = Some vv
    /\ Forall (fun kv => used kv.2 <= used vv) l1
    /\ Forall (fun kv => used kv.2 < used vv) l2
    /\ store (Adapter_Set now evict_now range key response expiration a)
       = <[key := Response_Bytes {| Value := response; Expiration := expiration;
                                    LastAccess := now; Frequency := 1 |}]>
           (delete victim (store a))
    /\ store (Adapter_Set now evict_now range key response expiration a)
         !! victim = None
    /\ ((forall k1 v1 k2 v2,
           k1 <> k2 -> store a !! k1 = Some v1 -> store a !! k2 = Some v2 ->
           used v1 <> used v2) ->
        forall k v, k <> victim -> store a !! k = Some v -> used v < used vv).
Proof.
  intros Halg Hcap Hlen Hr Hkey Hcount.
  pose proof (at_capacity a Hcap Hlen) as Hfull.
  destruct (MFU_scan range (evict_init MFU evict_now))
    as [[_ Hall] | (l1 & victim & vv & l2 & Hsplit & Hsel & _ & _ & H1 & H2)].
  - exfalso.
    destruct (ranges_cons a range Hr) as (k0 & v0 & l & ->); [lia|].
    apply Forall_cons in Hall as [Hv0 _]. cbn in Hv0.
    assert (Hin : store a !! k0 = Some v0).
    { apply (ranges_elem _ _ _ _ Hr), elem_of_cons. auto. }
    specialize (Hcount _ _ Hin). lia.
  - assert (Hvic : store a !! victim = Some vv).
    { apply (ranges_elem _ _ _ _ Hr). rewrite Hsplit.
      apply elem_of_app. right. apply elem_of_cons. auto. }
    assert (Hstore :
      store (Adapter_Set now evict_now range key response expiration a)
      = <[key := Response_Bytes {| Value := response; Expiration := expiration;
                                   LastAccess := now; Frequency := 1 |}]>
          (delete victim (store a))).
    { rewrite store_Set, Hfull, Halg. unfold evict_select. rewrite Hsel.
      reflexivity. }
    exists l1, victim, vv, l2.
    split; [exact Hsplit|]. split; [exact Hvic|]. split; [exact H1|].
    split; [exact H2|]. split; [exact Hstore|]. split.
    + rewrite Hstore. rewrite lookup_insert_ne by congruence.
      apply lookup_delete_eq.
    + intros Hdist k v Hne Hk.
      pose proof (proj2 (ranges_elem _ _ _ _ Hr) Hk) as Hin.
      rewrite Hsplit in Hin. apply elem_of_app in Hin as [Hin|Hin].
      * rewrite Forall_forall in H1. specialize (H1 _ Hin). cbn in H1.
        specialize (Hdist k v victim vv Hne Hk Hvic). lia.
      * apply elem_of_cons in Hin as [[= -> ->]|Hin]; [contradiction|].
        rewrite Forall_forall in H2. apply (H2 _ Hin).
Qed.

Lemma C7_MFU_witness :
  exists l1 victim vv l2,
    [(1, Response_Bytes (entry x61 10 5)); (2, Response_Bytes (entry x62 20 5));
     (3, Response_Bytes (entry x63 30 2))]
    = l1 ++ (victim, vv) :: l2
    /\ Forall (fun kv => used kv.2 <= used vv) l1
    /\ Forall (fun kv => used kv.2 < used vv) l2
    /\ store (Adapter_Set (seconds 40) (seconds 41)
                [(1, Response_Bytes (entry x61 10 5));
                 (2, Response_Bytes (entry x62 20 5));
                 (3, Response_Bytes (entry x63 30 2))]
                4 [x64] (seconds 1000)
                (adapter 3 MFU [(1, Response_Bytes (entry x61 10 5));
                                (2, Response_Bytes (entry x62 20 5));
                                (3, Response_Bytes (entry x63 30 2))]))
         !! victim = None.
Proof.
  destruct (C7_MFU (seconds 40) (seconds 41)
              [(1, Response_Bytes (entry x61 10 5));
               (2, Response_Bytes (entry x62 20 5));
               (3, Response_Bytes (entry x63 30 2))]
              4 [x64] (seconds 1000)
              (adapter 3 MFU [(1, Response_Bytes (entry x61 10 5));
                              (2, Response_Bytes (entry x62 20 5));
                              (3, Response_Bytes (entry x63 30 2))]))
    as (l1 & victim & vv & l2 & Hsplit & _ & H1 & H2 & _ & Hgone & _).
  - reflexivity.
  - reflexivity.
  - vm_compute. reflexivity.
  - apply ranges_list. nodup_now.
  - vm_compute. reflexivity.
  - intros k v H. sample_entries; vm_compute; discriminate.
  - exists l1, victim, vv, l2. auto.
Defined.

(** The tie of the example above goes to key 2, the later of the two
    entries of frequency 5. *)
Example MFU_tie :
  evict_select MFU (seconds 41)
    [(1, Response_Bytes (entry x61 10 5)); (2, Response_Bytes (entry x62 20 5));
     (3, Response_Bytes (entry x63 30 2))] = 2.
Proof. vm_compute. reflexivity. Qed.

(** ** The capacity bound *)

Lemma NewAdapter_inr opts a :
  NewAdapter opts = inr a -> 1 < capacity a /\ store a = ∅.
Proof.
  unfold NewAdapter.
  destruct (apply_options opts _) as [e|a0]; [discriminate|].
  destruct (Z.leb_spec (capacity a0) 1); [discriminate|].
  destruct (String.eqb (algorithm a0) EmptyString); [discriminate|].
  intros [= <-]. cbn. auto.
Qed.

(** In a store of fresh records the first entry the scan meets replaces
    the initial candidate, whatever the policy. *)
Lemma first_pick alg now t k v :
  recognized alg ->
  time_le (accessed v) t -> time_lt t now -> time_le time.zero (accessed v) ->
  0 <= used v <= 1 ->
  selectedKey (evict_visit alg (evict_init alg now) (k, v)) = k.
Proof.
  intros Halg Hle Hlt Hz Hu.
  destruct Halg as [-> | [-> | [-> | ->]]]; unfold evict_visit, evict_init;
    change (cache_BytesToResponse v) with (cache_BytesToResponse v);
    fold (accessed v); fold (used v);
    cbn [String.eqb Ascii.eqb Bool.eqb LRU MRU LFU MFU lastAccess frequency
         selectedKey andb].
  - destruct (time.Before (accessed v) now) eqn:E; [reflexivity|].
    exfalso. revert Hle Hlt E. generalize (accessed v). intros. time_order.
  - destruct (time.After (accessed v) time.zero
              || time.Equal (accessed v) time.zero) eqn:E; [reflexivity|].
    exfalso. revert Hz E. generalize (accessed v). intros. time_order.
  - destruct (Z.ltb_spec (used v) 2147483647); [reflexivity | lia].
  - destruct (Z.leb_spec 0 (used v)); [reflexivity | lia].
Qed.

Lemma evict_select_present alg t now range a :
  recognized alg -> fresh_records t a -> time_lt t now ->
  ranges range a -> 0 < len (store a) ->
  is_Some (store a !! evict_select alg now range).
Proof.
  intros Halg Hfresh Hlt Hr Hpos.
  destruct (ranges_cons a range Hr Hpos) as (k0 & v0 & l & ->).
  assert (H0 : store a !! k0 = Some v0).
  { apply (ranges_elem _ _ _ _ Hr), elem_of_cons. auto. }
  destruct (Hfresh _ _ H0) as (Hle & Hz & Hu).
  unfold evict_select. cbn [fold_left].
  destruct (evict_fold_key alg l (evict_visit alg (evict_init alg now) (k0, v0)))
    as [E|E]; rewrite ?E.
  - rewrite (first_pick alg now t k0 v0) by assumption. eauto.
  - apply list_elem_of_fmap in E as ([k v] & -> & Hin).
    exists v. apply (ranges_elem _ _ _ _ Hr), elem_of_cons. auto.
Qed.

Lemma len_insert key v (m : gmap Z (list byte)) : len (<[key := v]> m) <= len m + 1.
Proof.
  unfold len. rewrite map_size_insert. destruct (m !! key); cbn; lia.
Qed.

(** One call of [Set] keeps the store within its capacity and its records
    fresh. *)
Lemma call_bounded t a c :
  1 < capacity a -> recognized (algorithm a) ->
  len (store a) <= capacity a -> fresh_records t a -> time_le time.zero t ->
  time_lt t (call_now c) -> time_le (call_now c) (call_evict_now c) ->
  time.valid (call_now c) -> time.valid (call_expiration c) ->
  ranges (call_range c) a ->
  len (store (call c a)) <= capacity a
  /\ fresh_records (call_evict_now c) (call c a)
  /\ time_le time.zero (call_evict_now c).
Proof.
  intros Hcap Halg Hlen Hfresh Hz Hnow Hevict Hvn Hve Hr.
  assert (Hlate : time_lt t (call_evict_now c))
    by (eapply time_lt_le_trans; eassumption).
  assert (Hz' : time_le time.zero (call_evict_now c)).
  { eapply time_le_trans; [exact Hz|]. apply time_lt_le. exact Hlate. }
  unfold call, fresh_records. rewrite store_Set.
  set (res := {| Value := call_response c; Expiration := call_expiration c;
                 LastAccess := call_now c; Frequency := 1 |}).
  set (m := if (0 <? len (store a)) && (len (store a) =? capacity a)
            then delete (evict_select (algorithm a) (call_evict_now c)
                           (call_range c)) (store a)
            else store a).
  assert (Hm : len m + 1 <= capacity a
               /\ forall k v, m !! k = Some v -> store a !! k = Some v).
  { unfold m.
    destruct (Z.ltb_spec 0 (len (store a))) as [Hpos|Hzero];
      [destruct (Z.eqb_spec (len (store a)) (capacity a)) as [Hfull|Hroom]|];
      cbn [andb].
    - destruct (evict_select_present (algorithm a) t (call_evict_now c)
                  (call_range c) a) as [v Hv]; auto.
      split.
      + unfold len in *. rewrite map_size_delete, Hv. cbn.
        assert (size (store a) <> 0%nat) by lia. lia.
      + intros k v' Hk. apply lookup_delete_Some in Hk. tauto.
    - split; [lia | auto].
    - split; [lia | auto]. }
  destruct Hm as [Hsize Hsub].
  split; [pose proof (len_insert (call_key c) (Response_Bytes res) m); lia|].
  split; [|exact Hz'].
  intros k v Hk. apply lookup_insert_Some in Hk as [[<- <-]|[Hne Hk]].
  - unfold accessed, used, cache_BytesToResponse.
    destruct (BytesToResponse_Bytes_cases res) as [E|E]; rewrite ?E;
      cbn [res Expiration LastAccess Frequency zeroResponse]; auto; try lia.
    + split; [exact Hevict|]. split; [|lia].
      eapply time_le_trans; [exact Hz|]. apply time_lt_le. exact Hnow.
    + split; [exact Hz'|]. split; [apply time_le_refl | lia].
  - destruct (Hfresh _ _ (Hsub _ _ Hk)) as (Hle & Hzero & Hu).
    repeat split; try tauto; try lia.
    eapply time_le_trans; [exact Hle|]. apply time_lt_le. exact Hlate.
Qed.

Lemma capacity_call c a : capacity (call c a) = capacity a.
Proof. apply capacity_Set. Qed.

Lemma algorithm_call c a : algorithm (call c a) = algorithm a.
Proof. apply algorithm_Set. Qed.

Lemma run_bounded cs : forall t a,
  1 < capacity a -> recognized (algorithm a) ->
  len (store a) <= capacity a -> fresh_records t a -> time_le time.zero t ->
  ticking t a cs ->
  len (store (run cs a)) <= capacity a.
Proof.
  induction cs as [|c cs IH]; intros t a Hcap Halg Hlen Hfresh Hz Htick.
  - exact Hlen.
  - destruct Htick as (Hnow & Hevict & Hvn & Hve & Hr & Htick).
    destruct (call_bounded t a c) as (Hlen' & Hfresh' & Hz'); auto.
    change (run (c :: cs) a) with (run cs (call c a)).
    rewrite <- (capacity_call c a).
    apply (IH (call_evict_now c)); rewrite ?capacity_call, ?algorithm_call; auto.
Qed.

Lemma ticking_take n : forall cs t a, ticking t a cs -> ticking t a (take n cs).
Proof.
  induction n as [|n IH]; intros cs t a H; [exact I|].
  destruct cs as [|c cs]; [exact I|].
  cbn [take ticking] in *. intuition auto.
Qed.

(** C1: a store made by [NewAdapter] (so of a capacity above 1) with one of
    the four policies, on which a program of [Set] calls runs, holds at
    most [capacity] entries after each of the calls, whatever the keys.
    The clock is assumed to advance from each call to the next. *)
Theorem C1_capacity (opts : list AdapterOptions) (a : Adapter) (t : Time)
    (cs : list SetCall) (n : nat) :
  NewAdapter opts = inr a ->
  recognized (algorithm a) ->
  time_le time.zero t ->
  ticking t a cs ->
  len (store (run (take n cs) a)) <= capacity a.
Proof.
  intros Hnew Halg Hz Htick.
  apply NewAdapter_inr in Hnew as [Hcap Hempty].
  apply (run_bounded (take n cs) t); auto.
  - rewrite Hempty. unfold len. rewrite map_size_empty. lia.
  - intros k v Hk. rewrite Hempty, lookup_empty in Hk. discriminate.
  - apply ticking_take. exact Htick.
Qed.

Lemma C1_capacity_witness :
  ticking (seconds 0) {| capacity := 2; algorithm := LRU; store := ∅ |} three_sets
  /\ len (store (run (take 3 three_sets)
                   {| capacity := 2; algorithm := LRU; store := ∅ |})) <= 2.
Proof.
  assert (Htick : ticking (seconds 0)
                    {| capacity := 2; algorithm := LRU; store := ∅ |} three_sets).
  { cbn [ticking three_sets].
    repeat split; try (vm_compute; congruence);
      unfold ranges; vm_compute; first [reflexivity | apply Permutation_swap]. }
  split; [exact Htick|].
  apply (C1_capacity (configure (Some 2) (Some LRU))
           {| capacity := 2; algorithm := LRU; store := ∅ |} (seconds 0)
           three_sets 3).
  - reflexivity.
  - left. reflexivity.
  - reflexivity.
  - exact Htick.
Defined.

(** Why the clock has to advance: the least-recently-used scan starts from
    [time.Now()] and takes an entry only if it was accessed before that.
    Under a clock that stands still no entry is, the scan ends on its
    initial key 0, which is not in the store, and the third call leaves
    three entries in a store of capacity 2. *)
Example stalled_clock :
  evict_select LRU (seconds 10)
    [(1, Response_Bytes (entry x61 10 1)); (2, Response_Bytes (entry x62 10 1))]
  = 0
  /\ len (store (run three_sets_stalled
                   {| capacity := 2; algorithm := LRU; store := ∅ |})) = 3.
Proof. split; vm_compute; reflexivity. Qed.

(** ** Records that do not decode *)

(** An unsigned integer of more than one byte: the first byte holds the
    count of the others. *)
Lemma encodeUint_long x c rest :
  0 <= x < 2 ^ 64 -> gob.encodeUint x = c :: rest -> rest <> [] ->
  127 < Z_of_byte c
  /\ 256 - Z_of_byte c = Z.of_nat (length rest)
  /\ (length rest <= 8)%nat.
Proof.
  intros Hx. unfold gob.encodeUint.
  destruct (Z.leb_spec x 127) as [Hs|Hl].
  - intros [= <- <-] H. contradiction.
  - unfold gob.LeadingZeros64. destruct (Z.eqb_spec x 0) as [|_]; [lia|].
    rewrite Z.shiftr_div_pow2 by lia. change (2 ^ 3) with 8.
    set (bc := (63 - Z.log2 x) / 8).
    assert (Hlog : 7 <= Z.log2 x < 64).
    { split.
      - change 7 with (Z.log2 128). apply Z.log2_le_mono. lia.
      - apply Z.log2_lt_pow2; lia. }
    assert (Hbc : 0 <= bc <= 7).
    { unfold bc.
      assert (0 <= (63 - Z.log2 x) / 8) by (apply Z.div_pos; lia).
      assert ((63 - Z.log2 x) / 8 <= 56 / 8) by (apply Z.div_le_mono; lia).
      change (56 / 8) with 7 in *. lia. }
    intros [= <- <-] _. rewrite Z_of_byte_of_Z. unfold gob.uint64Size.
    replace ((bc - 8) mod 256) with (bc + 248)
      by (apply (Z.mod_unique (bc - 8) 256 (-1)); lia).
    rewrite !length_drop. cbn [length]. lia.
Qed.

(** A stream cut short fails in [recvMessage], before anything is stored. *)
Lemma Decode_cut m b s r0 :
  Z.of_nat (length m) < gob.tooBig ->
  gob.encodeUint (Z.of_nat (length m)) ++ m = b ++ s -> s <> [] ->
  exists e, gob.Decode b r0 = (r0, Some e).
Proof.
  intros Hm Happ Hs.
  assert (Hn : 0 <= Z.of_nat (length m) < 2 ^ 64)
    by (unfold gob.tooBig in Hm; lia).
  apply app_eq_app in Happ as [l [[Hb Hs'] | [Hb Hm']]].
  - (* the cut is inside the length *)
    destruct b as [|c b'].
    { eexists. reflexivity. }
    destruct l as [|c' l'].
    + (* the length is whole, the message is missing *)
      rewrite app_nil_r in Hb. cbn [app] in Hs'. subst s.
      unfold gob.Decode. rewrite <- Hb.
      rewrite <- (app_nil_r (gob.encodeUint _)).
      rewrite decodeUint_encodeUint by lia.
      destruct (Z.leb_spec gob.tooBig (Z.of_nat (length m))); [lia|].
      destruct m; [contradiction|]. cbn [length] in *.
      destruct (Z.ltb_spec (Z.of_nat 0) (Z.of_nat (S (length m)))); [|lia].
      eexists. reflexivity.
    + cbn [app] in Hb.
      destruct (encodeUint_long _ c (b' ++ c' :: l') Hn Hb) as (Hc & Hcount & Hle).
      { destruct b'; discriminate. }
      rewrite length_app in Hcount, Hle. cbn [length] in Hcount, Hle.
      unfold gob.Decode, gob.decodeUint, gob.uint64Size.
      destruct (Z.leb_spec (Z_of_byte c) 127); [lia|].
      destruct (Z.ltb_spec 8 (256 - Z_of_byte c)); [lia|].
      destruct (Z.ltb_spec (Z.of_nat (length b')) (256 - Z_of_byte c)); [|lia].
      eexists. reflexivity.
  - (* the cut is inside the message *)
    subst b. unfold gob.Decode.
    rewrite decodeUint_encodeUint by lia.
    destruct (Z.leb_spec gob.tooBig (Z.of_nat (length m))); [lia|].
    rewrite Hm', length_app.
    destruct s; [contradiction|]. cbn [length].
    destruct (Z.ltb_spec (Z.of_nat (length l))
                (Z.of_nat (length l + S (length s)))); [|lia].
    eexists. reflexivity.
Qed.

Lemma BytesToResponse_truncated r b :
  valid_entry r -> b `prefix_of` Response_Bytes r -> b <> Response_Bytes r ->
  (exists e, gob.Decode b zeroResponse = (zeroResponse, Some e))
  /\ BytesToResponse b = zeroResponse.
Proof.
  intros Hr [s Hs] Hne.
  assert (Hcut : exists e, gob.Decode b zeroResponse = (zeroResponse, Some e)).
  { apply valid_entry_message in Hr.
    apply (Decode_cut (gob.message r) b s); [exact Hr| |].
    - rewrite <- Hs. unfold Response_Bytes, gob.Encode.
      destruct (Z.leb_spec gob.tooBig (Z.of_nat (length (gob.message r))));
        [lia | reflexivity].
    - intros ->. rewrite app_nil_r in Hs. congruence. }
  split; [exact Hcut|].
  destruct Hcut as [e He]. unfold BytesToResponse. rewrite He. reflexivity.
Qed.

(** C10, as stated, fails: the record [corrupted] does not decode (gob
    reports a field number out of bounds), yet the entry [BytesToResponse]
    returns is not the zero entry: it has the value and the expiration read
    before the error, and [Get] returns that value with [true] and keeps the
    key in the store. *)
Lemma C10_counterexample :
  snd (gob.Decode corrupted zeroResponse) = Some gob.errRange
  /\ BytesToResponse corrupted
     = {| Value := [x61]; Expiration := seconds 1000;
          LastAccess := time.zero; Frequency := 0 |}
  /\ fst (Adapter_Get (seconds 20) (seconds 21) 7
            (adapter 2 LRU [(7, corrupted)])) = ([x61], true)
  /\ is_Some (store (snd (Adapter_Get (seconds 20) (seconds 21) 7
                            (adapter 2 LRU [(7, corrupted)]))) !! 7).
Proof.
  split; [vm_compute; reflexivity|].
  split; [vm_compute; reflexivity|].
  split; [vm_compute; reflexivity|].
  eexists. vm_compute. reflexivity.
Qed.

(** C10, amended: decoding never signals an error to the caller.  For a key
    whose stored bytes are a truncated record (a proper prefix of the
    encoding of a valid entry, the empty record included) the decoder fails
    before it stores any field, [BytesToResponse] yields the zero-valued
    entry, and [Get], at a clock reading that is not before the zero time,
    returns [(nil, false)] and removes the entry as [Release] does. *)
Theorem C10_truncated (a : Adapter) (key : Z) (b : list byte) (r : Response)
    (now1 now2 : Time) :
  store a !! key = Some b ->
  valid_entry r ->
  b `prefix_of` Response_Bytes r ->
  b <> Response_Bytes r ->
  time_le time.zero now1 ->
  (exists e, gob.Decode b zeroResponse = (zeroResponse, Some e))
  /\ BytesToResponse b = zeroResponse
  /\ Adapter_Get now1 now2 key a = (([], false), Adapter_Release key a)
  /\ store (Adapter_Release key a) !! key = None.
Proof.
  intros Hk Hr Hpre Hne Hclock.
  destruct (BytesToResponse_truncated r b Hr Hpre Hne) as [Herr Hzero].
  split; [exact Herr|]. split; [exact Hzero|]. split.
  - apply (Get_expired now1 now2 key a b Hk).
    rewrite Hzero. cbn [zeroResponse Expiration].
    rewrite After_Before. exact Hclock.
  - rewrite store_Release. apply lookup_delete_eq.
Qed.

Lemma C10_truncated_witness :
  BytesToResponse (take 20 (Response_Bytes (entry x61 10 3))) = zeroResponse
  /\ Adapter_Get (seconds 20) (seconds 21) 7
       (adapter 2 LRU [(7, take 20 (Response_Bytes (entry x61 10 3)))])
     = (([], false),
        Adapter_Release 7
          (adapter 2 LRU [(7, take 20 (Response_Bytes (entry x61 10 3)))])).
Proof.
  destruct (C10_truncated
              (adapter 2 LRU [(7, take 20 (Response_Bytes (entry x61 10 3)))])
              7 (take 20 (Response_Bytes (entry x61 10 3))) (entry x61 10 3)
              (seconds 20) (seconds 21))
    as (_ & Hzero & Hget & _).
  - vm_compute. reflexivity.
  - valid_now.
  - apply prefix_take.
  - vm_compute. discriminate.
  - reflexivity.
  - split; [exact Hzero | exact Hget].
Defined.

(** ** Interleavings *)

(** The sections of a call, run without interruption, are the call. *)
Lemma alone_call c a :
  Interleaving.at_pc (Interleaving.alone c a).1 = Interleaving.Done
  /\ (Interleaving.alone c a).2 = call c a.
Proof.
  unfold Interleaving.alone, Interleaving.exec, call, Adapter_Set,
    Adapter_evict, Adapter_Release.
  cbn [fold_left Interleaving.sched Interleaving.first Interleaving.shared
       Interleaving.second Interleaving.start Interleaving.step
       Interleaving.at_pc Interleaving.running Interleaving.goto fst snd].
  destruct ((0 <? len (store a)) && (len (store a) =? capacity a));
    cbn [Interleaving.first Interleaving.shared Interleaving.step
         Interleaving.at_pc Interleaving.running Interleaving.goto fst snd].
  - destruct (store a !! evict_select (algorithm a) (call_evict_now c)
                (call_range c));
      cbn [Interleaving.first Interleaving.shared Interleaving.step
           Interleaving.at_pc Interleaving.running Interleaving.goto fst snd];
      auto.
  - auto.
Qed.

(** C9: [Set] is not one atomic section.  Two calls with new keys on a
    store that has one free slot can both read the length before either
    inserts: then neither evicts, both insert, and the store ends one entry
    above its capacity. *)
Theorem C9_two_writers (a : Adapter) (c1 c2 : SetCall) :
  len (store a) + 1 = capacity a ->
  store a !! call_key c1 = None ->
  store a !! call_key c2 = None ->
  call_key c1 <> call_key c2 ->
  let s := Interleaving.exec
             [Interleaving.First; Interleaving.Second;
              Interleaving.First; Interleaving.Second;
              Interleaving.First; Interleaving.Second]
             {| Interleaving.first := Interleaving.start c1;
                Interleaving.second := Interleaving.start c2;
                Interleaving.shared := a |} in
  Interleaving.at_pc (Interleaving.first s) = Interleaving.Done
  /\ Interleaving.at_pc (Interleaving.second s) = Interleaving.Done
  /\ len (store (Interleaving.shared s)) = capacity a + 1.
Proof.
  intros Hlen Hk1 Hk2 Hne.
  assert (Hroom : (0 <? len (store a)) && (len (store a) =? capacity a) = false).
  { destruct (Z.eqb_spec (len (store a)) (capacity a)); [lia|].
    apply andb_false_r. }
  unfold Interleaving.exec.
  cbn [fold_left Interleaving.sched Interleaving.first Interleaving.shared
       Interleaving.second Interleaving.start Interleaving.step
       Interleaving.at_pc Interleaving.running Interleaving.goto].
  repeat (rewrite Hroom;
    cbn [fold_left Interleaving.sched Interleaving.first Interleaving.shared
         Interleaving.second Interleaving.start Interleaving.step
         Interleaving.at_pc Interleaving.running Interleaving.goto]).
  cbn [with_store store capacity].
  split; [reflexivity|]. split; [reflexivity|].
  unfold len in *.
  rewrite map_size_insert_None.
  - rewrite map_size_insert_None by exact Hk1. lia.
  - rewrite lookup_insert_ne by exact Hne. exact Hk2.
Qed.

Lemma C9_two_writers_witness :
  len (store (Interleaving.shared
                (Interleaving.exec
                   [Interleaving.First; Interleaving.Second;
                    Interleaving.First; Interleaving.Second;
                    Interleaving.First; Interleaving.Second]
                   {| Interleaving.first :=
                        Interleaving.start (set_at 2 x62 20 []);
                      Interleaving.second :=
                        Interleaving.start (set_at 3 x63 20 []);
                      Interleaving.shared :=
                        adapter 2 LRU [(1, Response_Bytes (entry x61 10 1))] |})))
  = 3.
Proof.
  apply (C9_two_writers
           (adapter 2 LRU [(1, Response_Bytes (entry x61 10 1))])
           (set_at 2 x62 20 []) (set_at 3 x63 20 [])).
  - vm_compute. reflexivity.
  - vm_compute. reflexivity.
  - vm_compute. reflexivity.
  - discriminate.
Defined.


(** * Further properties of the adapter *)

(** ** The scans of the other two policies *)

Lemma evict_visit_MRU s k v :
  evict_visit MRU s (k, v)
  = if time.After (accessed v) (lastAccess s)
       || time.Equal (accessed v) (lastAccess s)
    then {| selectedKey := k; lastAccess := accessed v; frequency := frequency s |}
    else s.
Proof. reflexivity. Qed.

Lemma evict_visit_LFU s k v :
  evict_visit LFU s (k, v)
  = if used v <? frequency s
    then {| selectedKey := k; lastAccess := lastAccess s; frequency := used v |}
    else s.
Proof. reflexivity. Qed.

Lemma After_or_Equal t u :
  time.After t u || time.Equal t u = negb (time.Before t u).
Proof. time_order. Qed.

(** The scan of most-recently-used: nothing is selected when every entry
    was accessed before the initial time; otherwise the last of the entries
    accessed latest. *)
Lemma MRU_scan l s :
  (fold_left (evict_visit MRU) l s = s
   /\ Forall (fun kv => time_lt (accessed kv.2) (lastAccess s)) l)
  \/ (exists l1 k v l2,
        l = l1 ++ (k, v) :: l2
        /\ selectedKey (fold_left (evict_visit MRU) l s) = k
        /\ lastAccess (fold_left (evict_visit MRU) l s) = accessed v
        /\ time_le (lastAccess s) (accessed v)
        /\ Forall (fun kv => time_le (accessed kv.2) (accessed v)) l1
        /\ Forall (fun kv => time_lt (accessed kv.2) (accessed v)) l2).
Proof.
  revert s. induction l as [|[kx vx] l IH]; intros s; cbn [fold_left].
  - left. split; [reflexivity | constructor].
  - rewrite evict_visit_MRU, After_or_Equal.
    destruct (time.Before (accessed vx) (lastAccess s)) eqn:Epick; cbn [negb].
    + destruct (IH s)
        as [[-> Hall] | (l1 & k & v & l2 & -> & Hk & Hla & Hle & H1 & H2)].
      * left. split; [reflexivity|]. constructor; [exact Epick | exact Hall].
      * right. exists ((kx, vx) :: l1), k, v, l2. repeat split; auto.
        constructor; [|exact H1]. cbn. apply time_lt_le.
        eapply time_lt_le_trans; [exact Epick | exact Hle].
    + right.
      destruct (IH {| selectedKey := kx; lastAccess := accessed vx;
                      frequency := frequency s |})
        as [[-> Hall] | (l1 & k & v & l2 & -> & Hk & Hla & Hle & H1 & H2)];
        cbn [lastAccess selectedKey] in *.
      * exists [], kx, vx, l. repeat split; auto.
      * exists ((kx, vx) :: l1), k, v, l2. repeat split; auto.
        eapply time_le_trans; [exact Epick | exact Hle].
Qed.

(** The scan of least-frequently-used: nothing is selected when no
    frequency is below the initial one; otherwise the first of the entries
    used least. *)
Lemma LFU_scan l s :
  (fold_left (evict_visit LFU) l s = s
   /\ Forall (fun kv => frequency s <= used kv.2) l)
  \/ (exists l1 k v l2,
        l = l1 ++ (k, v) :: l2
        /\ selectedKey (fold_left (evict_visit LFU) l s) = k
        /\ frequency (fold_left (evict_visit LFU) l s) = used v
        /\ used v < frequency s
        /\ Forall (fun kv => used v < used kv.2) l1
        /\ Forall (fun kv => used v <= used kv.2) l2).
Proof.
  revert s. induction l as [|[kx vx] l IH]; intros s; cbn [fold_left].
  - left. split; [reflexivity | constructor].
  - rewrite evict_visit_LFU.
    destruct (Z.ltb_spec (used vx) (frequency s)) as [Epick|Epick].
    + right.
      destruct (IH {| selectedKey := kx; lastAccess := lastAccess s;
                      frequency := used vx |})
        as [[-> Hall] | (l1 & k & v & l2 & -> & Hk & Hfr & Hlt & H1 & H2)];
        cbn [frequency selectedKey] in *.
      * exists [], kx, vx, l. repeat split; auto.
      * exists ((kx, vx) :: l1), k, v, l2. repeat split; auto; lia.
    + destruct (IH s)
        as [[-> Hall] | (l1 & k & v & l2 & -> & Hk & Hfr & Hlt & H1 & H2)].
      * left. split; [reflexivity|]. constructor; [exact Epick | exact Hall].
      * right. exists ((kx, vx) :: l1), k, v, l2. repeat split; auto.
        constructor; [cbn; lia | exact H1].
Qed.

(** ** What [Set] evicts *)

Lemma Set_evicts now evict_now range key response expiration a :
  1 < capacity a -> len (store a) = capacity a ->
  store (Adapter_Set now evict_now range key response expiration a)
  = <[key := record now response expiration]>
      (delete (evict_select (algorithm a) evict_now range) (store a)).
Proof.
  intros Hcap Hlen. rewrite store_Set, (at_capacity a Hcap Hlen). reflexivity.
Qed.

Lemma ranges_split range a l1 k v l2 :
  ranges range a -> range = l1 ++ (k, v) :: l2 -> store a !! k = Some v.
Proof.
  intros Hr ->. apply (ranges_elem _ _ _ _ Hr).
  apply elem_of_app. right. apply elem_of_cons. auto.
Qed.

(** X9: Least-recently-used with ties: at capacity, if some entry was accessed
    before the clock reading of the eviction, [Set] removes the entry
    accessed earliest, and of several accessed at that same time the one the
    loop meets first. *)
Theorem LRU_evicts_first_of_earliest (now evict_now : Time)
    (range : list (Z * list byte)) (key : Z) (response : list byte)
    (expiration : Time) (a : Adapter) :
  algorithm a = LRU ->
  1 < capacity a ->
  len (store a) = capacity a ->
  ranges range a ->
  Exists (fun kv => time_lt (accessed kv.2) evict_now) range ->
  exists l1 victim vv l2,
    range = l1 ++ (victim, vv) :: l2
    /\ store a !! victim = Some vv
    /\ Forall (fun kv => time_lt (accessed vv) (accessed kv.2)) l1
    /\ Forall (fun kv => time_le (accessed vv) (accessed kv.2)) l2
    /\ store (Adapter_Set now evict_now range key response expiration a)
       = <[key := record now response expiration]> (delete victim (store a)).
Proof.
  intros Halg Hcap Hlen Hr Hex.
  destruct (LRU_scan range (evict_init LRU evict_now))
    as [[_ Hall] | (l1 & victim & vv & l2 & Hsplit & Hsel & _ & _ & H1 & H2)].
  - exfalso. apply Exists_exists in Hex as (kv & Hin & Hlt).
    rewrite Forall_forall in Hall. specialize (Hall kv Hin).
    change (lastAccess (evict_init LRU evict_now)) with evict_now in Hall.
    revert Hall Hlt. generalize (accessed kv.2). intros. time_order.
  - exists l1, victim, vv, l2.
    split; [exact Hsplit|]. split; [eapply ranges_split; eassumption|].
    split; [exact H1|]. split; [exact H2|].
    rewrite Set_evicts, Halg by assumption.
    unfold evict_select. rewrite Hsel. reflexivity.
Qed.

(** X10: Most-recently-used: at capacity, if some entry was accessed at or
    after the zero time, [Set] removes the entry accessed latest, and of
    several accessed at that same time the one the loop meets last. *)
Theorem MRU_evicts_last_of_latest (now evict_now : Time)
    (range : list (Z * list byte)) (key : Z) (response : list byte)
    (expiration : Time) (a : Adapter) :
  algorithm a = MRU ->
  1 < capacity a ->
  len (store a) = capacity a ->
  ranges range a ->
  Exists (fun kv => time_le time.zero (accessed kv.2)) range ->
  exists l1 victim vv l2,
    range = l1 ++ (victim, vv) :: l2
    /\ store a !! victim = Some vv
    /\ Forall (fun kv => time_le (accessed kv.2) (accessed vv)) l1
    /\ Forall (fun kv => time_lt (accessed kv.2) (accessed vv)) l2
    /\ store (Adapter_Set now evict_now range key response expiration a)
       = <[key := record now response expiration]> (delete victim (store a)).
Proof.
  intros Halg Hcap Hlen Hr Hex.
  destruct (MRU_scan range (evict_init MRU evict_now))
    as [[_ Hall] | (l1 & victim & vv & l2 & Hsplit & Hsel & _ & _ & H1 & H2)].
  - exfalso. apply Exists_exists in Hex as (kv & Hin & Hle).
    rewrite Forall_forall in Hall. specialize (Hall kv Hin).
    change (lastAccess (evict_init MRU evict_now)) with time.zero in Hall.
    revert Hall Hle. generalize (accessed kv.2). intros. time_order.
  - exists l1, victim, vv, l2.
    split; [exact Hsplit|]. split; [eapply ranges_split; eassumption|].
    split; [exact H1|]. split; [exact H2|].
    rewrite Set_evicts, Halg by assumption.
    unfold evict_select. rewrite Hsel. reflexivity.
Qed.

(** X11: Least-frequently-used: at capacity, if some entry was used less than
    2147483647 times, [Set] removes the entry used least, and of several
    used equally little the one the loop meets first. *)
Theorem LFU_evicts_first_of_least (now evict_now : Time)
    (range : list (Z * list byte)) (key : Z) (response : list byte)
    (expiration : Time) (a : Adapter) :
  algorithm a = LFU ->
  1 < capacity a ->
  len (store a) = capacity a ->
  ranges range a ->
  Exists (fun kv => used kv.2 < 2147483647) range ->
  exists l1 victim vv l2,
    range = l1 ++ (victim, vv) :: l2
    /\ store a !! victim = Some vv
    /\ Forall (fun kv => used vv < used kv.2) l1
    /\ Forall (fun kv => used vv <= used kv.2) l2
    /\ store (Adapter_Set now evict_now range key response expiration a)
       = <[key := record now response expiration]> (delete victim (store a)).
Proof.
  intros Halg Hcap Hlen Hr Hex.
  destruct (LFU_scan range (evict_init LFU evict_now))
    as [[_ Hall] | (l1 & victim & vv & l2 & Hsplit & Hsel & _ & _ & H1 & H2)].
  - exfalso. apply Exists_exists in Hex as (kv & Hin & Hlt).
    rewrite Forall_forall in Hall. specialize (Hall kv Hin).
    change (frequency (evict_init LFU evict_now)) with 2147483647 in Hall. lia.
  - exists l1, victim, vv, l2.
    split; [exact Hsplit|]. split; [eapply ranges_split; eassumption|].
    split; [exact H1|]. split; [exact H2|].
    rewrite Set_evicts, Halg by assumption.
    unfold evict_select. rewrite Hsel. reflexivity.
Qed.

Lemma LRU_evicts_first_of_earliest_witness :
  exists l1 victim vv l2,
    tied = l1 ++ (victim, vv) :: l2
    /\ store (adapter 3 LRU tied) !! victim = Some vv
    /\ Forall (fun kv => time_lt (accessed vv) (accessed kv.2)) l1
    /\ Forall (fun kv => time_le (accessed vv) (accessed kv.2)) l2
    /\ store (Adapter_Set (seconds 40) (seconds 41) tied 4 [x64] (seconds 1000)
                (adapter 3 LRU tied))
       = <[4 := record (seconds 40) [x64] (seconds 1000)]>
           (delete victim (store (adapter 3 LRU tied))).
Proof.
  apply (LRU_evicts_first_of_earliest (seconds 40) (seconds 41) tied 4 [x64] (seconds 1000)
           (adapter 3 LRU tied)).
  - reflexivity.
  - reflexivity.
  - vm_compute. reflexivity.
  - apply ranges_list. nodup_now.
  - apply Exists_cons_hd. vm_compute. reflexivity.
Defined.

Lemma MRU_evicts_last_of_latest_witness :
  exists l1 victim vv l2,
    tied = l1 ++ (victim, vv) :: l2
    /\ store (adapter 3 MRU tied) !! victim = Some vv
    /\ Forall (fun kv => time_le (accessed kv.2) (accessed vv)) l1
    /\ Forall (fun kv => time_lt (accessed kv.2) (accessed vv)) l2
    /\ store (Adapter_Set (seconds 40) (seconds 41) tied 4 [x64] (seconds 1000)
                (adapter 3 MRU tied))
       = <[4 := record (seconds 40) [x64] (seconds 1000)]>
           (delete victim (store (adapter 3 MRU tied))).
Proof.
  apply (MRU_evicts_last_of_latest (seconds 40) (seconds 41) tied 4 [x64] (seconds 1000)
           (adapter 3 MRU tied)).
  - reflexivity.
  - reflexivity.
  - vm_compute. reflexivity.
  - apply ranges_list. nodup_now.
  - apply Exists_cons_hd. vm_compute. reflexivity.
Defined.

Lemma LFU_evicts_first_of_least_witness :
  exists l1 victim vv l2,
    tied = l1 ++ (victim, vv) :: l2
    /\ store (adapter 3 LFU tied) !! victim = Some vv
    /\ Forall (fun kv => used vv < used kv.2) l1
    /\ Forall (fun kv => used vv <= used kv.2) l2
    /\ store (Adapter_Set (seconds 40) (seconds 41) tied 4 [x64] (seconds 1000)
                (adapter 3 LFU tied))
       = <[4 := record (seconds 40) [x64] (seconds 1000)]>
           (delete victim (store (adapter 3 LFU tied))).
Proof.
  apply (LFU_evicts_first_of_least (seconds 40) (seconds 41) tied 4 [x64] (seconds 1000)
           (adapter 3 LFU tied)).
  - reflexivity.
  - reflexivity.
  - vm_compute. reflexivity.
  - apply ranges_list. nodup_now.
  - apply Exists_cons_hd. vm_compute. reflexivity.
Defined.

(** The ties of [tied] go to key 2 under least-recently-used and
    least-frequently-used (the first met), and most-recently-used takes
    key 3. *)
Example tied_victims :
  evict_select LRU (seconds 41) tied = 2
  /\ evict_select LFU (seconds 41) tied = 2
  /\ evict_select MRU (seconds 41) tied = 3.
Proof. repeat split; vm_compute; reflexivity. Qed.

(** ** When the scan finds no candidate *)

Lemma evict_visit_other alg s kv : ~ recognized alg -> evict_visit alg s kv = s.
Proof.
  intros Hn. unfold recognized in Hn. destruct kv as [k v]. unfold evict_visit.
  destruct (String.eqb_spec alg LRU); [tauto|].
  destruct (String.eqb_spec alg MRU); [tauto|].
  destruct (String.eqb_spec alg LFU); [tauto|].
  destruct (String.eqb_spec alg MFU); [tauto|]. reflexivity.
Qed.

Lemma no_candidate_select alg now range :
  no_candidate alg now range -> evict_select alg now range = 0.
Proof.
  unfold evict_select.
  intros [[-> Hall] | [[-> Hall] | [[-> Hall] | [[-> Hall] | Hn]]]].
  - destruct (LRU_scan range (evict_init LRU now))
      as [[-> _] | (l1 & k & v & l2 & -> & _ & _ & Hlt & _)]; [reflexivity|].
    exfalso. apply Forall_app in Hall as [_ Hall].
    apply Forall_cons in Hall as [Hv _].
    change (lastAccess (evict_init LRU now)) with now in Hlt.
    cbn in Hv. revert Hv Hlt. generalize (accessed v). intros. time_order.
  - destruct (MRU_scan range (evict_init MRU now))
      as [[-> _] | (l1 & k & v & l2 & -> & _ & _ & Hle & _)]; [reflexivity|].
    exfalso. apply Forall_app in Hall as [_ Hall].
    apply Forall_cons in Hall as [Hv _].
    change (lastAccess (evict_init MRU now)) with time.zero in Hle.
    cbn in Hv. revert Hv Hle. generalize (accessed v). intros. time_order.
  - destruct (LFU_scan range (evict_init LFU now))
      as [[-> _] | (l1 & k & v & l2 & -> & _ & _ & Hlt & _)]; [reflexivity|].
    exfalso. apply Forall_app in Hall as [_ Hall].
    apply Forall_cons in Hall as [Hv _].
    change (frequency (evict_init LFU now)) with 2147483647 in Hlt.
    cbn in Hv. lia.
  - destruct (MFU_scan range (evict_init MFU now))
      as [[-> _] | (l1 & k & v & l2 & -> & _ & _ & Hle & _)]; [reflexivity|].
    exfalso. apply Forall_app in Hall as [_ Hall].
    apply Forall_cons in Hall as [Hv _].
    change (frequency (evict_init MFU now)) with 0 in Hle.
    cbn in Hv. lia.
  - induction range as [|kv l IH] using rev_ind; [reflexivity|].
    rewrite fold_left_app. cbn [fold_left].
    rewrite evict_visit_other by assumption. exact IH.
Qed.

(** X12: When no entry can replace the initial candidate of [evict], the scan
    ends on its initial key 0: [Set] at capacity then removes the entry of
    key 0, whatever its age or use, and when there is no key 0 it removes
    nothing, so that a new key takes the store one entry above its
    capacity. *)
Theorem Set_without_candidate (now evict_now : Time)
    (range : list (Z * list byte)) (key : Z) (response : list byte)
    (expiration : Time) (a : Adapter) :
  1 < capacity a ->
  len (store a) = capacity a ->
  no_candidate (algorithm a) evict_now range ->
  store (Adapter_Set now evict_now range key response expiration a)
  = <[key := record now response expiration]> (delete 0 (store a))
  /\ (store a !! 0 = None -> store a !! key = None ->
      len (store (Adapter_Set now evict_now range key response expiration a))
      = capacity a + 1).
Proof.
  intros Hcap Hlen Hno.
  assert (Hst : store (Adapter_Set now evict_now range key response expiration a)
                = <[key := record now response expiration]> (delete 0 (store a))).
  { rewrite Set_evicts by assumption.
    rewrite no_candidate_select by assumption. reflexivity. }
  split; [exact Hst|].
  intros H0 Hk. rewrite Hst, delete_id by exact H0.
  unfold len in *. rewrite map_size_insert_None by exact Hk. lia.
Qed.

Lemma Set_without_candidate_witness :
  len (store (Adapter_Set (seconds 10) (seconds 10)
                [(1, Response_Bytes (entry x61 10 1));
                 (2, Response_Bytes (entry x62 10 1))]
                3 [x63] (seconds 1000)
                (adapter 2 LRU [(1, Response_Bytes (entry x61 10 1));
                                (2, Response_Bytes (entry x62 10 1))])))
  = 2 + 1.
Proof.
  apply (Set_without_candidate (seconds 10) (seconds 10)
           [(1, Response_Bytes (entry x61 10 1));
            (2, Response_Bytes (entry x62 10 1))]
           3 [x63] (seconds 1000)
           (adapter 2 LRU [(1, Response_Bytes (entry x61 10 1));
                           (2, Response_Bytes (entry x62 10 1))])).
  - reflexivity.
  - vm_compute. reflexivity.
  - left. split; [reflexivity|].
    repeat constructor; vm_compute; reflexivity.
  - vm_compute. reflexivity.
  - vm_compute. reflexivity.
Defined.

(** ** Single steps of [Set] and [Get] *)

Lemma Set_key now evict_now range key response expiration a :
  store (Adapter_Set now evict_now range key response expiration a) !! key
  = Some (record now response expiration).
Proof. rewrite store_Set. apply lookup_insert_eq. Qed.

Lemma Set_old now evict_now range key response expiration a k v :
  k <> key ->
  store (Adapter_Set now evict_now range key response expiration a) !! k = Some v ->
  store a !! k = Some v.
Proof.
  intros Hne. rewrite store_Set, lookup_insert_ne by congruence.
  destruct ((0 <? len (store a)) && (len (store a) =? capacity a)); [|auto].
  intros Hk. apply lookup_delete_Some in Hk. tauto.
Qed.

Lemma Set_only_writes now evict_now range key response expiration a :
  len (store a) <> capacity a ->
  store (Adapter_Set now evict_now range key response expiration a)
  = <[key := record now response expiration]> (store a).
Proof.
  intros Hne. rewrite store_Set.
  destruct (Z.eqb_spec (len (store a)) (capacity a)); [contradiction|].
  rewrite andb_false_r. reflexivity.
Qed.

Lemma Get_changes now1 now2 key a :
  (forall k, k <> key ->
     store (Adapter_Get now1 now2 key a).2 !! k = store a !! k)
  /\ len (store (Adapter_Get now1 now2 key a).2) <= len (store a)
  /\ (is_Some (store (Adapter_Get now1 now2 key a).2 !! key)
      <-> (Adapter_Get now1 now2 key a).1.2 = true)
  /\ capacity (Adapter_Get now1 now2 key a).2 = capacity a
  /\ algorithm (Adapter_Get now1 now2 key a).2 = algorithm a.
Proof.
  unfold Adapter_Get. destruct (store a !! key) as [res|] eqn:Hk.
  - destruct (time.After (Expiration (BytesToResponse res)) now1);
      cbn [fst snd with_store store capacity algorithm].
    + split; [intros k Hne; apply lookup_insert_ne; congruence|].
      split; [unfold len; rewrite map_size_insert_Some by eauto; lia|].
      split; [|auto]. rewrite lookup_insert_eq. split; eauto.
    + rewrite store_Release, capacity_Release, algorithm_Release.
      split; [intros k Hne; apply lookup_delete_ne; congruence|].
      split; [unfold len; rewrite map_size_delete_Some by eauto; lia|].
      split; [|auto]. rewrite lookup_delete_eq.
      split; [intros [v Hv]; discriminate | discriminate].
  - cbn [fst snd]. split; [auto|]. split; [lia|]. split; [|auto].
    rewrite Hk. split; [intros [v Hv]; discriminate | discriminate].
Qed.

(** ** [Release] and [Purge] *)

(** X1: [Release] removes the key and nothing else: the key is absent
    afterwards, every other key keeps its record, the store has one entry
    less when the key was there and the adapter is untouched when it was
    not; a second [Release] changes nothing. *)
Theorem Release_removes (key : Z) (a : Adapter) :
  store (Adapter_Release key a) !! key = None
  /\ (forall k, k <> key -> store (Adapter_Release key a) !! k = store a !! k)
  /\ (is_Some (store a !! key) ->
      len (store (Adapter_Release key a)) = len (store a) - 1)
  /\ (store a !! key = None -> Adapter_Release key a = a)
  /\ Adapter_Release key (Adapter_Release key a) = Adapter_Release key a
  /\ capacity (Adapter_Release key a) = capacity a
  /\ algorithm (Adapter_Release key a) = algorithm a.
Proof.
  assert (Hgone : store (Adapter_Release key a) !! key = None)
    by (rewrite store_Release; apply lookup_delete_eq).
  assert (Habsent : forall b, store b !! key = None -> Adapter_Release key b = b)
    by (intros b Hb; unfold Adapter_Release; rewrite Hb; reflexivity).
  split; [exact Hgone|]. split; [|split; [|split; [|split; [|split]]]].
  - intros k Hne. rewrite store_Release. apply lookup_delete_ne. congruence.
  - intros Hk. rewrite store_Release. unfold len.
    rewrite map_size_delete_Some by exact Hk.
    assert (size (store a) <> 0%nat); [|lia].
    intros Hz. apply map_size_empty_iff in Hz. destruct Hk as [v Hv].
    rewrite Hz, lookup_empty in Hv. discriminate.
  - apply Habsent.
  - apply Habsent, Hgone.
  - apply capacity_Release.
  - apply algorithm_Release.
Qed.

(** X2: [Purge] leaves an empty store with the capacity and the policy it had:
    afterwards every [Get] is a miss and changes nothing. *)
Theorem Purge_empties (a : Adapter) (now1 now2 : Time) (key : Z) :
  len (store (Adapter_Purge a)) = 0
  /\ store (Adapter_Purge a) !! key = None
  /\ Adapter_Get now1 now2 key (Adapter_Purge a) = (([], false), Adapter_Purge a)
  /\ capacity (Adapter_Purge a) = capacity a
  /\ algorithm (Adapter_Purge a) = algorithm a.
Proof.
  unfold Adapter_Purge, Adapter_Get, with_store, len. cbn [store capacity algorithm].
  rewrite lookup_empty, map_size_empty. auto.
Qed.

(** ** What [Get] and [Set] leave alone *)

(** X3: [Get] touches the entry of its key only and never adds one: every
    other key keeps its record, the store does not grow, and the key is in
    the store afterwards exactly when the call reports a hit. *)
Theorem Get_frame (now1 now2 : Time) (key : Z) (a : Adapter) :
  (forall k, k <> key ->
     store (Adapter_Get now1 now2 key a).2 !! k = store a !! k)
  /\ len (store (Adapter_Get now1 now2 key a).2) <= len (store a)
  /\ (is_Some (store (Adapter_Get now1 now2 key a).2 !! key)
      <-> (Adapter_Get now1 now2 key a).1.2 = true)
  /\ capacity (Adapter_Get now1 now2 key a).2 = capacity a
  /\ algorithm (Adapter_Get now1 now2 key a).2 = algorithm a.
Proof. apply Get_changes. Qed.

(** X4: [Set] writes its key and removes at most one other entry: the key holds
    the new record afterwards, every record found under another key was
    there before, all other keys but one keep their records, and the store
    grows by one entry at most. *)
Theorem Set_frame (now evict_now : Time) (range : list (Z * list byte))
    (key : Z) (response : list byte) (expiration : Time) (a : Adapter) :
  store (Adapter_Set now evict_now range key response expiration a) !! key
  = Some (record now response expiration)
  /\ (forall k v, k <> key ->
        store (Adapter_Set now evict_now range key response expiration a) !! k
        = Some v -> store a !! k = Some v)
  /\ (exists victim, forall k, k <> key -> k <> victim ->
        store (Adapter_Set now evict_now range key response expiration a) !! k
        = store a !! k)
  /\ len (store (Adapter_Set now evict_now range key response expiration a))
     <= len (store a) + 1
  /\ capacity (Adapter_Set now evict_now range key response expiration a)
     = capacity a
  /\ algorithm (Adapter_Set now evict_now range key response expiration a)
     = algorithm a.
Proof.
  rewrite store_Set, capacity_Set, algorithm_Set. fold (record now response expiration).
  set (victim := evict_select (algorithm a) evict_now range).
  split; [apply lookup_insert_eq|].
  split; [|split; [|split; [|auto]]].
  - intros k v Hne. rewrite lookup_insert_ne by congruence.
    destruct ((0 <? len (store a)) && (len (store a) =? capacity a)); [|auto].
    intros Hk. apply lookup_delete_Some in Hk. tauto.
  - exists victim. intros k Hne Hnv. rewrite lookup_insert_ne by congruence.
    destruct ((0 <? len (store a)) && (len (store a) =? capacity a)); [|auto].
    apply lookup_delete_ne. congruence.
  - etransitivity; [apply len_insert|].
    destruct ((0 <? len (store a)) && (len (store a) =? capacity a)); [|lia].
    unfold len. rewrite map_size_delete. destruct (store a !! victim); cbn; lia.
Qed.

(** ** Occupancy *)

(** X5: [Set] evicts only at the exact capacity: when the number of entries
    differs from it, below or above, [Set] only writes its key, and a new
    key adds one entry. *)
Theorem Set_off_capacity (now evict_now : Time) (range : list (Z * list byte))
    (key : Z) (response : list byte) (expiration : Time) (a : Adapter) :
  len (store a) <> capacity a ->
  store (Adapter_Set now evict_now range key response expiration a)
  = <[key := record now response expiration]> (store a)
  /\ (store a !! key = None ->
      len (store (Adapter_Set now evict_now range key response expiration a))
      = len (store a) + 1).
Proof.
  intros Hne.
  assert (Hst : store (Adapter_Set now evict_now range key response expiration a)
                = <[key := record now response expiration]> (store a)).
  { apply Set_only_writes. exact Hne. }
  split; [exact Hst|].
  intros Hk. rewrite Hst. unfold len. rewrite map_size_insert_None by exact Hk. lia.
Qed.

Lemma Set_off_capacity_witness :
  len (store (Adapter_Set (seconds 30) (seconds 31) [] 2 [x62] (seconds 1000)
                (adapter 3 LRU [(1, Response_Bytes (entry x61 10 1))])))
  = len (store (adapter 3 LRU [(1, Response_Bytes (entry x61 10 1))])) + 1.
Proof.
  apply (Set_off_capacity (seconds 30) (seconds 31) [] 2 [x62] (seconds 1000)
           (adapter 3 LRU [(1, Response_Bytes (entry x61 10 1))])).
  - vm_compute. discriminate.
  - vm_compute. reflexivity.
Defined.

(** X6: A store that holds more entries than its capacity stays so: no program
    of [Set] calls, whatever its keys, clock and policy, ever takes an
    entry out of it again. *)
Theorem overflow_stays (cs : list SetCall) (a : Adapter) :
  capacity a < len (store a) ->
  len (store a) <= len (store (run cs a))
  /\ forall k, is_Some (store a !! k) -> is_Some (store (run cs a) !! k).
Proof.
  revert a. induction cs as [|c cs IH]; intros a Hover.
  - split; [cbn; lia | auto].
  - change (run (c :: cs) a) with (run cs (call c a)).
    assert (Hst := Set_only_writes (call_now c) (call_evict_now c) (call_range c)
                     (call_key c) (call_response c) (call_expiration c) a
                     ltac:(lia)).
    fold (call c a) in Hst.
    assert (Hgrow : len (store a) <= len (store (call c a))).
    { rewrite Hst. unfold len. rewrite map_size_insert.
      destruct (store a !! call_key c); cbn; lia. }
    destruct (IH (call c a)) as [Hlen Hkeep].
    { rewrite capacity_call. lia. }
    split; [lia|].
    intros k Hk. apply Hkeep. rewrite Hst.
    destruct (Z.eq_dec (call_key c) k) as [->|Hne].
    + rewrite lookup_insert_eq. eauto.
    + rewrite lookup_insert_ne by exact Hne. exact Hk.
Qed.

Lemma overflow_stays_witness :
  len (store (adapter 2 LRU tied)) <= len (store (run three_sets (adapter 2 LRU tied))).
Proof.
  apply (overflow_stays three_sets (adapter 2 LRU tied)).
  vm_compute. reflexivity.
Defined.

(** X7: [Release] after [Set] of a new key, in a store that is not at capacity,
    gives back the adapter as it was. *)
Theorem Release_after_Set (now evict_now : Time) (range : list (Z * list byte))
    (key : Z) (response : list byte) (expiration : Time) (a : Adapter) :
  store a !! key = None ->
  len (store a) <> capacity a ->
  Adapter_Release key (Adapter_Set now evict_now range key response expiration a)
  = a.
Proof.
  intros Hk Hne.
  pose proof (Set_only_writes now evict_now range key response expiration a Hne)
    as Hst.
  unfold Adapter_Release. rewrite Hst, lookup_insert_eq.
  unfold with_store. rewrite capacity_Set, algorithm_Set.
  rewrite delete_insert_eq, delete_id by exact Hk. destruct a. reflexivity.
Qed.

Lemma Release_after_Set_witness :
  Adapter_Release 2
    (Adapter_Set (seconds 30) (seconds 31) [] 2 [x62] (seconds 1000)
       (adapter 3 LRU [(1, Response_Bytes (entry x61 10 1))]))
  = adapter 3 LRU [(1, Response_Bytes (entry x61 10 1))].
Proof.
  apply (Release_after_Set (seconds 30) (seconds 31) [] 2 [x62] (seconds 1000)
           (adapter 3 LRU [(1, Response_Bytes (entry x61 10 1))])).
  - vm_compute. reflexivity.
  - vm_compute. discriminate.
Defined.

(** ** Counting the hits *)

(** X8: A run of hits on one key: as long as every [Get] comes before the
    expiration, [n] calls leave the record with the same value and
    expiration, the frequency raised by [n] and the clock reading of the
    last call as lastAccess; the other keys keep their records. *)
Theorem Gets_count (readings : list (Time * Time)) (key : Z) (a : Adapter)
    (r : Response) :
  store a !! key = Some (Response_Bytes r) ->
  valid_entry r ->
  Forall (fun nn => time.After (Expiration r) nn.1 = true /\ time.valid nn.2)
    readings ->
  Frequency r + Z.of_nat (length readings) < 2 ^ 63 ->
  store (Gets readings key a) !! key
  = Some (Response_Bytes
            {| Value := Value r; Expiration := Expiration r;
               LastAccess := fold_left (fun _ nn => nn.2) readings (LastAccess r);
               Frequency := Frequency r + Z.of_nat (length readings) |})
  /\ forall k, k <> key -> store (Gets readings key a) !! k = store a !! k.
Proof.
  revert a r. induction readings as [|[n1 n2] l IH]; intros a r Hk Hr Hall Hmax.
  - cbn [Gets fold_left length]. rewrite Z.add_0_r. destruct r. auto.
  - apply Forall_cons in Hall as [[Hvalid Hn2] Hall].
    cbn [length] in Hmax. rewrite Nat2Z.inj_succ in Hmax.
    pose proof Hr as (He & Hl & Hf & Hlen).
    unfold Gets. cbn [fold_left fst snd].
    rewrite (Get_valid n1 n2 key a _ Hk)
      by (rewrite BytesToResponse_Bytes by exact Hr; exact Hvalid).
    rewrite BytesToResponse_Bytes by exact Hr.
    cbn [snd]. rewrite int_small by lia.
    set (r1 := {| Value := Value r; Expiration := Expiration r;
                  LastAccess := n2; Frequency := Frequency r + 1 |}).
    destruct (IH (with_store a (<[key := Response_Bytes r1]> (store a))) r1)
      as [Hkey Hother].
    + cbn [with_store store]. apply lookup_insert_eq.
    + unfold valid_entry, r1. cbn [Value Expiration LastAccess Frequency].
      split; [exact He|]. split; [exact Hn2|]. split; [lia | exact Hlen].
    + exact Hall.
    + cbn [r1 Frequency]. lia.
    + split.
      * unfold Gets in Hkey. rewrite Hkey. cbn [r1 Value Expiration LastAccess Frequency].
        cbn [length]. rewrite Nat2Z.inj_succ. do 3 f_equal. lia.
      * intros k Hne. unfold Gets in Hother. rewrite Hother by exact Hne.
        cbn [with_store store]. apply lookup_insert_ne. congruence.
Qed.

Lemma Gets_count_witness :
  store (Gets [(seconds 20, seconds 21); (seconds 30, seconds 31)] 7
           (adapter 2 LFU [(7, Response_Bytes (entry x61 10 1))])) !! 7
  = Some (Response_Bytes (entry x61 31 3)).
Proof.
  apply (Gets_count [(seconds 20, seconds 21); (seconds 30, seconds 31)] 7
           (adapter 2 LFU [(7, Response_Bytes (entry x61 10 1))])
           (entry x61 10 1)).
  - vm_compute. reflexivity.
  - valid_now.
  - repeat constructor; vm_compute; congruence.
  - vm_compute. reflexivity.
Defined.

(** ** What the scan reads *)

(** X13: The scan looks at the key, the lastAccess and the frequency of a record
    and at nothing else: two walks whose records agree on these select the
    same key, whatever their values and expirations (an expired entry is a
    candidate like any other). *)
Theorem evict_reads_metadata_only (alg : Algorithm) (now : Time)
    (range1 range2 : list (Z * list byte)) :
  Forall2 (fun kv1 kv2 =>
             kv1.1 = kv2.1 /\ accessed kv1.2 = accessed kv2.2
             /\ used kv1.2 = used kv2.2) range1 range2 ->
  evict_select alg now range1 = evict_select alg now range2.
Proof.
  unfold evict_select. generalize (evict_init alg now).
  intros s H. revert s.
  induction H as [|[k1 v1] [k2 v2] l1 l2 (Hk & Ha & Hu) _ IH]; intros s;
    [reflexivity|].
  cbn [fst snd] in Hk, Ha, Hu. subst k2. cbn [fold_left].
  replace (evict_visit alg s (k1, v2)) with (evict_visit alg s (k1, v1));
    [apply IH|].
  unfold evict_visit. unfold accessed, used in Ha, Hu. rewrite Ha, Hu.
  reflexivity.
Qed.

Lemma evict_reads_metadata_only_witness :
  evict_select LRU (seconds 40)
    [(1, Response_Bytes (entry x61 10 1)); (2, Response_Bytes (entry x62 20 1))]
  = evict_select LRU (seconds 40)
      [(1, Response_Bytes {| Value := [x7a; x7a]; Expiration := seconds 5;
                             LastAccess := seconds 10; Frequency := 1 |});
       (2, Response_Bytes (entry x62 20 1))].
Proof.
  apply (evict_reads_metadata_only LRU (seconds 40)).
  repeat constructor; vm_compute; reflexivity.
Defined.

(** ** More on construction *)

Lemma apply_options_app opts1 opts2 a :
  apply_options (opts1 ++ opts2) a
  = match apply_options opts1 a with
    | inl err => inl err
    | inr a1 => apply_options opts2 a1
    end.
Proof.
  revert a. induction opts1 as [|opt opts1 IH]; intros a; cbn [app apply_options].
  - reflexivity.
  - destruct (opt a); [reflexivity | apply IH].
Qed.

(** X14: Whatever the options are, an adapter that [NewAdapter] returns has a
    capacity above 1, a non-empty policy tag and an empty store. *)
Theorem NewAdapter_postcondition (opts : list AdapterOptions) (a : Adapter) :
  NewAdapter opts = inr a ->
  1 < capacity a /\ algorithm a <> EmptyString /\ store a = ∅.
Proof.
  unfold NewAdapter.
  destruct (apply_options opts _) as [e|a0]; [discriminate|].
  destruct (Z.leb_spec (capacity a0) 1); [discriminate|].
  destruct (String.eqb_spec (algorithm a0) EmptyString); [discriminate|].
  intros [= <-]. cbn. auto.
Qed.

Lemma NewAdapter_postcondition_witness :
  1 < capacity {| capacity := 5; algorithm := MFU; store := ∅ |}
  /\ algorithm {| capacity := 5; algorithm := MFU; store := ∅ |} <> EmptyString
  /\ store {| capacity := 5; algorithm := MFU; store := ∅ |} = ∅.
Proof.
  apply (NewAdapter_postcondition
           [AdapterWithCapacity 3; AdapterWithAlgorithm MFU; AdapterWithCapacity 5]).
  reflexivity.
Defined.

(** X15: A capacity option of 1 or less fails the construction wherever it
    stands among the options, even when a later option would set a larger
    capacity: [NewAdapter] stops at the first option that returns an
    error. *)
Theorem bad_capacity_fails (opts1 opts2 : list AdapterOptions) (cap : Z) :
  cap <= 1 -> failed (NewAdapter (opts1 ++ AdapterWithCapacity cap :: opts2)).
Proof.
  intros Hc. unfold NewAdapter. rewrite apply_options_app.
  destruct (apply_options opts1 _) as [e|a1]; [exact I|].
  cbn [apply_options]. unfold AdapterWithCapacity.
  destruct (Z.leb_spec cap 1); [exact I | lia].
Qed.

Lemma bad_capacity_fails_witness :
  failed (NewAdapter ([AdapterWithAlgorithm LRU]
                      ++ AdapterWithCapacity 1 :: [AdapterWithCapacity 10])).
Proof.
  apply (bad_capacity_fails [AdapterWithAlgorithm LRU] [AdapterWithCapacity 10] 1).
  lia.
Defined.

(** X16: The options apply in order and the last one of a kind wins: after
    options that do not fail, a capacity above 1 and then a non-empty tag
    give the empty store with exactly that capacity and tag. *)
Theorem last_options_win (opts : list AdapterOptions) (cap : Z) (alg : Algorithm) :
  ~ failed (apply_options opts
              {| capacity := 0; algorithm := EmptyString; store := ∅ |}) ->
  1 < cap -> alg <> EmptyString ->
  NewAdapter (opts ++ [AdapterWithCapacity cap; AdapterWithAlgorithm alg])
  = inr {| capacity := cap; algorithm := alg; store := ∅ |}.
Proof.
  intros Hok Hc Hg. unfold NewAdapter. rewrite apply_options_app.
  destruct (apply_options opts _) as [e|a1]; [destruct Hok; exact I|].
  cbn [apply_options]. unfold AdapterWithCapacity, AdapterWithAlgorithm.
  destruct (Z.leb_spec cap 1); [lia|]. cbn [capacity algorithm].
  destruct (Z.leb_spec cap 1); [lia|].
  destruct (String.eqb_spec alg EmptyString); [contradiction|]. reflexivity.
Qed.

Lemma last_options_win_witness :
  NewAdapter ([AdapterWithCapacity 3; AdapterWithAlgorithm LRU]
              ++ [AdapterWithCapacity 7; AdapterWithAlgorithm MRU])
  = inr {| capacity := 7; algorithm := MRU; store := ∅ |}.
Proof.
  apply (last_options_win [AdapterWithCapacity 3; AdapterWithAlgorithm LRU] 7 MRU).
  - intros H. exact H.
  - lia.
  - discriminate.
Defined.

(** ** Bytes after a record *)

(** X17: [BytesToResponse] reads one record and stops: bytes that follow the
    encoding of a valid entry do not change what it returns. *)
Theorem BytesToResponse_trailing (r : Response) (extra : list byte) :
  valid_entry r -> BytesToResponse (Response_Bytes r ++ extra) = r.
Proof.
  intros Hr.
  destruct (decodeStruct_message r (5 + length (gob.message r)) Hr)
    as (fields & Hm & Hd); [lia|].
  apply valid_entry_message in Hr as Hlen.
  unfold BytesToResponse, Response_Bytes, gob.Encode, gob.Decode.
  destruct (Z.leb_spec gob.tooBig (Z.of_nat (length (gob.message r)))); [lia|].
  rewrite <- app_assoc.
  rewrite decodeUint_encodeUint by (unfold gob.tooBig in *; lia).
  destruct (Z.leb_spec gob.tooBig (Z.of_nat (length (gob.message r)))); [lia|].
  rewrite length_app.
  destruct (Z.ltb_spec (Z.of_nat (length (gob.message r) + length extra))
              (Z.of_nat (length (gob.message r)))); [lia|].
  rewrite Nat2Z.id, take_app_length.
  rewrite Hm in *. rewrite decodeInt_encodeInt by (unfold gob.responseId; lia).
  rewrite Z.eqb_refl.
  erewrite decodeStruct_fuel; [rewrite Hd; reflexivity | |];
    rewrite ?length_app; lia.
Qed.

Lemma BytesToResponse_trailing_witness :
  BytesToResponse (Response_Bytes (entry x61 10 3) ++ [xff; x00; x2a])
  = entry x61 10 3.
Proof.
  apply (BytesToResponse_trailing (entry x61 10 3) [xff; x00; x2a]). valid_now.
Defined.

(** ** The capacity bound under all four operations *)

Lemma first_pick_kept alg now t k v :
  recognized alg ->
  time_le (accessed v) t -> time_lt t now -> time_le time.zero (accessed v) ->
  0 <= used v < 2147483647 ->
  selectedKey (evict_visit alg (evict_init alg now) (k, v)) = k.
Proof.
  intros Halg Hle Hlt Hz Hu.
  destruct Halg as [-> | [-> | [-> | ->]]].
  - rewrite evict_visit_LRU.
    change (lastAccess (evict_init LRU now)) with now.
    destruct (time.Before (accessed v) now) eqn:E; [reflexivity|].
    exfalso. revert Hle Hlt E. generalize (accessed v). intros. time_order.
  - rewrite evict_visit_MRU, After_or_Equal.
    change (lastAccess (evict_init MRU now)) with time.zero.
    destruct (time.Before (accessed v) time.zero) eqn:E; [|reflexivity].
    exfalso. revert Hz E. generalize (accessed v). intros. time_order.
  - rewrite evict_visit_LFU.
    change (frequency (evict_init LFU now)) with 2147483647.
    destruct (Z.ltb_spec (used v) 2147483647); [reflexivity | lia].
  - rewrite evict_visit_MFU.
    change (frequency (evict_init MFU now)) with 0.
    destruct (Z.leb_spec 0 (used v)); [reflexivity | lia].
Qed.

Lemma evict_select_kept alg t n now range a :
  recognized alg -> kept_records t n a -> n < 2147483647 -> time_lt t now ->
  ranges range a -> 0 < len (store a) ->
  is_Some (store a !! evict_select alg now range).
Proof.
  intros Halg Hkept Hn Hlt Hr Hpos.
  destruct (ranges_cons a range Hr Hpos) as (k0 & v0 & l & ->).
  assert (H0 : store a !! k0 = Some v0).
  { apply (ranges_elem _ _ _ _ Hr), elem_of_cons. auto. }
  destruct (Hkept _ _ H0) as (_ & Hle & Hz & Hu).
  unfold evict_select. cbn [fold_left].
  destruct (evict_fold_key alg l (evict_visit alg (evict_init alg now) (k0, v0)))
    as [E|E]; rewrite ?E.
  - rewrite (first_pick_kept alg now t k0 v0) by (auto; lia). eauto.
  - apply list_elem_of_fmap in E as ([k v] & -> & Hin).
    exists v. apply (ranges_elem _ _ _ _ Hr), elem_of_cons. auto.
Qed.

Lemma kept_records_mono t t' n n' a :
  kept_records t n a -> time_le t t' -> n <= n' -> kept_records t' n' a.
Proof.
  intros H Ht Hn k v Hk. destruct (H k v Hk) as (He & Hle & Hz & Hu).
  split; [exact He|]. split; [eapply time_le_trans; eassumption|].
  split; [exact Hz | lia].
Qed.

Lemma kept_records_subset t n a b :
  kept_records t n a ->
  (forall k v, store b !! k = Some v -> store a !! k = Some v) ->
  kept_records t n b.
Proof. intros H Hsub k v Hk. apply (H k v), Hsub, Hk. Qed.

(** A record just written decodes to what was written or to the zero
    entry; either way it is one of the records the invariant allows. *)
Lemma kept_new_record t n r :
  time.valid (Expiration r) -> time.valid (LastAccess r) ->
  time_le (LastAccess r) t -> time_le time.zero (LastAccess r) ->
  time_le time.zero t -> 0 <= Frequency r <= n -> n < 2 ^ 63 ->
  time.valid (Expiration (BytesToResponse (Response_Bytes r)))
  /\ time_le (accessed (Response_Bytes r)) t
  /\ time_le time.zero (accessed (Response_Bytes r))
  /\ 0 <= used (Response_Bytes r) <= n.
Proof.
  intros He Hl Hle Hz Ht Hf Hn.
  unfold accessed, used, cache_BytesToResponse.
  destruct (BytesToResponse_Bytes_cases r) as [E|E]; auto; try lia;
    rewrite E; cbn [zeroResponse Expiration LastAccess Frequency].
  - auto.
  - split; [unfold time.valid, time.zero; cbn; lia|].
    split; [exact Ht|]. split; [apply time_le_refl | lia].
Qed.

(** One operation keeps the store within its capacity and its records
    within the invariant, with one more hit allowed. *)
Lemma perform_kept t n a o :
  1 < capacity a -> recognized (algorithm a) ->
  len (store a) <= capacity a -> kept_records t n a -> time_le time.zero t ->
  1 <= n < 2147483647 ->
  ticking_ops t a [o] ->
  len (store (perform o a)) <= capacity a
  /\ kept_records (clock_after t o) (n + 1) (perform o a)
  /\ time_le time.zero (clock_after t o)
  /\ capacity (perform o a) = capacity a
  /\ algorithm (perform o a) = algorithm a.
Proof.
  intros Hcap Halg Hlen Hkept Hz Hn [Henv _].
  destruct o as [c | key now1 now2 | key | ]; cbn [perform clock_after].
  - (* Set *)
    destruct Henv as (Hnow & Hevict & Hvn & Hve & Hr).
    assert (Hlate : time_lt t (call_evict_now c))
      by (eapply time_lt_le_trans; eassumption).
    assert (Hz' : time_le time.zero (call_evict_now c)).
    { eapply time_le_trans; [exact Hz|]. apply time_lt_le. exact Hlate. }
    rewrite capacity_call, algorithm_call.
    split; [|split; [|auto]].
    + destruct (Z.eq_dec (len (store a)) (capacity a)) as [Hfull|Hroom].
      * unfold call. rewrite Set_evicts by assumption.
        destruct (evict_select_kept (algorithm a) t n (call_evict_now c)
                    (call_range c) a) as [v Hv]; auto; try lia.
        etransitivity; [apply len_insert|].
        unfold len in *. rewrite map_size_delete, Hv. cbn.
        assert (size (store a) <> 0%nat) by lia. lia.
      * pose proof (Set_only_writes (call_now c) (call_evict_now c)
                      (call_range c) (call_key c) (call_response c)
                      (call_expiration c) a Hroom) as Hst.
        unfold call. rewrite Hst.
        pose proof (len_insert (call_key c)
                      (record (call_now c) (call_response c) (call_expiration c))
                      (store a)). lia.
    + intros k v Hk.
      destruct (Z.eq_dec k (call_key c)) as [->|Hne].
      * unfold call in Hk. rewrite Set_key in Hk. injection Hk as <-.
        apply kept_new_record; cbn [Expiration LastAccess Frequency];
          auto; try lia.
        eapply time_le_trans; [exact Hz|]. apply time_lt_le. exact Hnow.
      * pose proof (Set_old (call_now c) (call_evict_now c) (call_range c)
                      (call_key c) (call_response c) (call_expiration c) a)
          as Hold.
        assert (Hmono : kept_records (call_evict_now c) (n + 1) a).
        { apply (kept_records_mono t (call_evict_now c) n (n + 1) a Hkept);
            [apply time_lt_le; exact Hlate | lia]. }
        apply (Hmono k v), (Hold k v Hne Hk).
  - (* Get *)
    destruct Henv as [Hnow2 Hvalid2].
    destruct (Get_changes now1 now2 key a) as (Hother & Hsize & _ & Hc & Ha).
    rewrite Hc, Ha.
    split; [lia|]. split; [|split; [|auto]].
    + intros k v Hk.
      destruct (Z.eq_dec k key) as [->|Hne].
      * unfold Adapter_Get in Hk.
        destruct (store a !! key) as [res|] eqn:Hres; [|cbn in Hk; congruence].
        destruct (Hkept _ _ Hres) as (He & Hle & Hlz & Hu).
        destruct (time.After (Expiration (BytesToResponse res)) now1).
        -- cbn [snd with_store store] in Hk. rewrite lookup_insert_eq in Hk.
           injection Hk as <-.
           unfold used, accessed, cache_BytesToResponse in Hu.
           assert (Hz2 : time_le time.zero now2)
             by (eapply time_le_trans; [exact Hz | exact Hnow2]).
           apply kept_new_record; cbn [Expiration LastAccess Frequency];
             [ exact He | exact Hvalid2 | apply time_le_refl | exact Hz2
             | exact Hz2 | rewrite int_small by lia; lia | lia ].
        -- cbn [snd] in Hk. rewrite store_Release, lookup_delete_eq in Hk.
           discriminate.
      * rewrite Hother in Hk by exact Hne.
        assert (Hmono : kept_records now2 (n + 1) a)
          by (apply (kept_records_mono t now2 n (n + 1) a Hkept); auto; lia).
        apply (Hmono k v Hk).
    + eapply time_le_trans; eassumption.
  - (* Release *)
    rewrite capacity_Release, algorithm_Release.
    split; [|split; [|auto]].
    + rewrite store_Release. unfold len in *. rewrite map_size_delete.
      destruct (store a !! key); cbn; lia.
    + apply (kept_records_mono t t n (n + 1) (Adapter_Release key a));
        [|apply time_le_refl | lia].
      apply (kept_records_subset t n a); [exact Hkept|].
      intros k v Hk. rewrite store_Release in Hk.
      apply lookup_delete_Some in Hk. tauto.
  - (* Purge *)
    split; [|split; [|auto]].
    + unfold Adapter_Purge, len. cbn. rewrite map_size_empty. lia.
    + intros k v Hk. unfold Adapter_Purge in Hk. cbn in Hk.
      rewrite lookup_empty in Hk. discriminate.
Qed.

Lemma perform_all_bounded os : forall t n a,
  1 < capacity a -> recognized (algorithm a) ->
  len (store a) <= capacity a -> kept_records t n a -> time_le time.zero t ->
  1 <= n -> n + Z.of_nat (length os) < 2147483648 ->
  ticking_ops t a os ->
  len (store (perform_all os a)) <= capacity a.
Proof.
  induction os as [|o os IH]; intros t n a Hcap Halg Hlen Hkept Hz Hn Hmax Htick.
  - exact Hlen.
  - cbn [length] in Hmax. rewrite Nat2Z.inj_succ in Hmax.
    destruct Htick as [Henv Htick].
    destruct (perform_kept t n a o) as (Hlen' & Hkept' & Hz' & Hc & Ha);
      auto; [lia | split; [exact Henv | exact I] |].
    change (perform_all (o :: os) a) with (perform_all os (perform o a)).
    rewrite <- Hc.
    apply (IH (clock_after t o) (n + 1)); rewrite ?Hc, ?Ha; auto; lia.
Qed.

Lemma ticking_ops_take m : forall os t a,
  ticking_ops t a os -> ticking_ops t a (take m os).
Proof.
  induction m as [|m IH]; intros os t a H; [exact I|].
  destruct os as [|o os]; [exact I|].
  cbn [take ticking_ops] in *. destruct H as [Ho H]. split; [exact Ho | auto].
Qed.

(** X18: The capacity bound under all four operations: on a store made by
    [NewAdapter] with one of the four policies, every program of [Set],
    [Get], [Release] and [Purge] calls of fewer than 2147483646 operations,
    run under an advancing clock, leaves at most [capacity] entries after
    each of its operations. *)
Theorem mixed_capacity (opts : list AdapterOptions) (a : Adapter) (t : Time)
    (os : list Op) (m : nat) :
  NewAdapter opts = inr a ->
  recognized (algorithm a) ->
  time_le time.zero t ->
  ticking_ops t a os ->
  Z.of_nat (length os) < 2147483646 ->
  len (store (perform_all (take m os) a)) <= capacity a.
Proof.
  intros Hnew Halg Hz Htick Hshort.
  apply NewAdapter_inr in Hnew as [Hcap Hempty].
  apply (perform_all_bounded (take m os) t 1); auto; try lia.
  - rewrite Hempty. unfold len. rewrite map_size_empty. lia.
  - intros k v Hk. rewrite Hempty, lookup_empty in Hk. discriminate.
  - rewrite length_take. lia.
  - apply ticking_ops_take. exact Htick.
Qed.

Lemma mixed_capacity_witness :
  len (store (perform_all (take 6 mixed_program)
                {| capacity := 2; algorithm := LRU; store := ∅ |})) <= 2.
Proof.
  apply (mixed_capacity (configure (Some 2) (Some LRU))
           {| capacity := 2; algorithm := LRU; store := ∅ |} (seconds 0)
           mixed_program 6).
  - reflexivity.
  - left. reflexivity.
  - reflexivity.
  - cbn [ticking_ops mixed_program clock_after].
    repeat split; try (vm_compute; congruence);
      unfold ranges; vm_compute; first [reflexivity | apply Permutation_swap].
  - vm_compute. reflexivity.
Defined.
